(** * SharedJourneys: the interactive map widget (src/components/map.tsx)

    A shallow embedding of the pin store, the pin editor modals and the
    reverse-geocoding helper of [map.tsx], and the properties of the
    widget's specification that hold (or fail) on that code.

    Conventions of the embedding
    - a TypeScript [string] is the list of its UTF-16 code units ([jsstring]);
    - a coordinate ([number]) is a binary64 float, a pin id (the value of
      [Date.now()]) an integer;
    - a React state variable is a field of [State]; an event handler is a
      function of the state it was rendered with (its closure) that runs in
      the monad [M]: it updates the live state through the setters, asks the
      outside world (network, clock, confirmation dialog) and may end in a
      rejected promise.

    The marker icons, the tiles and the layout of the JSX are outside the
    embedding; of the JSX it keeps which control calls which handler and
    when a control is rendered and enabled. *)

From Stdlib Require Import ZArith NArith List Bool String Ascii.
From Stdlib Require Import Floats DecimalString.
Import ListNotations.

Set Implicit Arguments.
Local Open Scope list_scope.

(* ================================================================== *)
(** * JavaScript strings *)
(* ================================================================== *)

Module JsString.

(** A string value: a sequence of 16-bit code units. *)
Definition jsstring : Type := list N.

(** The string a literal of the source denotes (the literals of [map.tsx]
    used below are ASCII). *)
Definition str (s : string) : jsstring :=
  map N_of_ascii (list_ascii_of_string s).

(** The double quote, U+0022. *)
Definition dq : jsstring := [34%N].

(** ECMA-262 WhiteSpace and LineTerminator code points: what
    [String.prototype.trim] strips. *)
Definition isWhiteSpace (c : N) : bool :=
  ((9 <=? c) && (c <=? 13)            (* TAB LF VT FF CR *)
   || (c =? 32) || (c =? 160)         (* SP NBSP *)
   || (c =? 5760)                     (* U+1680 *)
   || ((8192 <=? c) && (c <=? 8202))  (* U+2000 .. U+200A *)
   || (c =? 8232) || (c =? 8233)      (* LS PS *)
   || (c =? 8239) || (c =? 8287)      (* U+202F U+205F *)
   || (c =? 12288) || (c =? 65279))%N%bool. (* U+3000 U+FEFF *)

Fixpoint trimStart (s : jsstring) : jsstring :=
  match s with
  | c :: s' => if isWhiteSpace c then trimStart s' else s
  | [] => []
  end.

Definition trimEnd (s : jsstring) : jsstring := rev (trimStart (rev s)).

(** [s.trim()] *)
Definition trim (s : jsstring) : jsstring := trimEnd (trimStart s).

(** A string in a boolean context: only the empty string is falsy. *)
Definition truthy (s : jsstring) : bool :=
  match s with [] => false | _ :: _ => true end.

(** [s.split(sep)] for a separator of one code unit. *)
Fixpoint split (sep : N) (s : jsstring) : list jsstring :=
  match s with
  | [] => [[]]
  | c :: s' =>
      if (c =? sep)%N then [] :: split sep s'
      else match split sep s' with
           | part :: parts => (c :: part) :: parts
           | [] => [[c]]
           end
  end.

(** [a.slice(from, to)] for non-negative indices. *)
Definition slice {A : Type} (from to : nat) (a : list A) : list A :=
  firstn (to - from) (skipn from a).

(** [a.join(sep)] *)
Fixpoint join (sep : jsstring) (a : list jsstring) : jsstring :=
  match a with
  | [] => []
  | [x] => x
  | x :: rest => x ++ sep ++ join sep rest
  end.

(** [a === b] *)
Definition eqb (a b : jsstring) : bool :=
  if list_eq_dec N.eq_dec a b then true else false.

End JsString.
Import JsString.

(* ================================================================== *)
(** * Numbers in template literals: Number::toString *)
(* ================================================================== *)

(** [`${lat}`] applies ToString to a Number.  This is ECMA-262
    Number::toString(x, 10): the shortest decimal that reads back as [x]
    (the closest one, the even one on a tie), laid out in positional or in
    exponent notation by the position [n] of its decimal point. *)
Module NumberToString.

Definition digits (z : Z) : jsstring :=
  str (NilEmpty.string_of_uint (N.to_uint (Z.to_N z))).

Definition zeros (n : Z) : jsstring := repeat 48%N (Z.to_nat n).

(** [10^q] as a fraction [(numerator, denominator)]. *)
Definition pow10 (q : Z) : Z * Z :=
  if (0 <=? q)%Z then (10 ^ q, 1)%Z else (1, 10 ^ (- q))%Z.

Definition pow2 (q : Z) : Z * Z :=
  if (0 <=? q)%Z then (2 ^ q, 1)%Z else (1, 2 ^ (- q))%Z.

(** Comparison of [a * 10^qa] with [b * 2^qb]. *)
Definition cmp10_2 (a qa b qb : Z) : comparison :=
  let '(pn, pd) := pow10 qa in
  let '(un, ud) := pow2 qb in
  (a * pn * ud ?= b * un * pd)%Z.

(* Below, [m] and [e] are the mantissa and the exponent of a finite
   positive value [m * 2^e]. *)

(** The least [n] with [m * 2^e < 10^n], searched upwards from [n]. *)
Fixpoint pointFrom (fuel : nat) (m e n : Z) : Z :=
  match fuel with
  | O => n
  | S fuel' =>
      match cmp10_2 1 n m e with
      | Gt => n
      | _ => pointFrom fuel' m e (n + 1)
      end
  end.

(** The position of the decimal point: the [n] with
    [10^(n-1) <= m * 2^e < 10^n].  As [2^l <= m * 2^e] for
    [l = log2 m + e], and [0.30103] is [log10 2] up to [10^-8], the search
    starts at most a few steps below [n]. *)
Definition point (m e : Z) : Z :=
  pointFrom 16 m e ((Z.log2 m + e) * 30103 / 100000 - 2).

(** Does the decimal [s * 10^q] round (to nearest, ties to even) to
    [m * 2^e]?  In units of [2^(e-2)] the value is [4m], the midpoint to the
    next float [4m+2], the midpoint to the previous one [4m-2], or [4m-1]
    when the previous float lies in the binade below. *)
Definition roundsTo (m e s q : Z) : bool :=
  let lo := if ((m =? 2 ^ 52) && (-1074 <? e))%Z%bool
            then (4 * m - 1)%Z else (4 * m - 2)%Z in
  let hi := (4 * m + 2)%Z in
  let inside c := match c with Gt => true | Eq => Z.even m | Lt => false end in
  inside (cmp10_2 s q lo (e - 2))
  && inside (CompOpp (cmp10_2 s q hi (e - 2))).

(** [floor (m * 2^e / 10^q)] *)
Definition scaled (m e q : Z) : Z :=
  let '(pn, pd) := pow10 q in
  let '(un, ud) := pow2 e in
  ((m * un * pd) / (ud * pn))%Z.

(** The candidate with [k] digits, if one reads back as the value: the
    closer of the two neighbours of the value among the multiples of
    [10^(n-k)]. *)
Definition candidate (m e n k : Z) : option Z :=
  let q := (n - k)%Z in
  let s := scaled m e q in
  let below := roundsTo m e s q in
  let above := roundsTo m e (s + 1) q in
  match below, above with
  | true, false => Some s
  | false, true => Some (s + 1)%Z
  | true, true =>
      match cmp10_2 (2 * s + 1) q (2 * m) e with
      | Gt => Some s                    (* the value is nearer to s *)
      | Lt => Some (s + 1)%Z
      | Eq => Some (if Z.even s then s else s + 1)%Z
      end
  | false, false => None
  end.

(** The digits [s], their number [k] and the position [n] of the point. *)
Fixpoint shortest (fuel : nat) (m e n k : Z) : Z * Z * Z :=
  match fuel with
  | O => (scaled m e (n - k), k, n)
  | S fuel' =>
      match candidate m e n k with
      | Some s => if (s =? 10 ^ k)%Z then (10 ^ (k - 1), k, n + 1)%Z
                  else (s, k, n)
      | None => shortest fuel' m e n (k + 1)
      end
  end.

Definition layout (s k n : Z) : jsstring :=
  let ds := digits s in
  if ((k <=? n) && (n <=? 21))%Z%bool then
    ds ++ zeros (n - k)
  else if ((0 <? n) && (n <=? 21))%Z%bool then
    firstn (Z.to_nat n) ds ++ str "." ++ skipn (Z.to_nat n) ds
  else if ((-6 <? n) && (n <=? 0))%Z%bool then
    str "0." ++ zeros (- n) ++ ds
  else
    let ex := (n - 1)%Z in
    let sign := if (ex <? 0)%Z then str "-" else str "+" in
    if (k =? 1)%Z then
      ds ++ str "e" ++ sign ++ digits (Z.abs ex)
    else
      firstn 1 ds ++ str "." ++ skipn 1 ds
         ++ str "e" ++ sign ++ digits (Z.abs ex).

Definition finiteToString (m e : Z) : jsstring :=
  let '(s, k, n) := shortest 20 m e (point m e) 1 in
  layout s k n.

Definition numToString (x : float) : jsstring :=
  match Prim2SF x with
  | S754_nan => str "NaN"
  | S754_zero _ => str "0"
  | S754_infinity sign => (if sign then str "-" else []) ++ str "Infinity"
  | S754_finite sign m e =>
      (if sign then str "-" else []) ++ finiteToString (Zpos m) e
  end.

End NumberToString.
Import NumberToString.

(* ================================================================== *)
(** * Data model *)
(* ================================================================== *)

(** [type PinCategory] *)
Inductive PinCategory : Type :=
  restaurant | bar | beach | travel | activity.

(** [interface Pin]; [address] is the optional field. *)
Record Pin : Type := {
  id : Z;
  lat : float;
  lng : float;
  title : jsstring;
  description : jsstring;
  category : PinCategory;
  address : option jsstring
}.

(** [{ lat: number; lng: number }], the pending pin of a map click. *)
Record LatLng : Type := { ll_lat : float; ll_lng : float }.

(** The state variables of the [Map] component, in the order of their
    [useState] calls. *)
Record State : Type := {
  pins : list Pin;
  showModal : bool;
  pendingPin : option LatLng;
  pinTitle : jsstring;
  pinDescription : jsstring;
  pinCategory : PinCategory;
  isLoadingAddress : bool;
  editingPin : option Pin;
  showEditModal : bool
}.

(** The state of a freshly mounted component. *)
Definition initial : State :=
  {| pins := []; showModal := false; pendingPin := None;
     pinTitle := []; pinDescription := []; pinCategory := restaurant;
     isLoadingAddress := false; editingPin := None; showEditModal := false |}.

(* ================================================================== *)
(** * The outside world and the handler monad *)
(* ================================================================== *)

(** The body of a reverse-geocoding response after [response.json()]: an
    object whose [display_name], when present, is a string. *)
Record GeoData : Type := { display_name : option jsstring }.

(** What a handler run meets outside the component: the outcome of
    [fetch(url)] followed by [response.json()] ([None] when either promise
    rejects: no connection, or an error page whose body is not JSON), the
    clock read by [Date.now()], and the user's answer to
    [window.confirm]. *)
Record World : Type := {
  fetchJson : jsstring -> option GeoData;
  dateNow : Z;
  windowConfirm : bool
}.

(** What a handler run does to the outside. *)
Inductive Effect : Type :=
| Fetch (url : jsstring)
| ConfirmDialog (message : jsstring)
| StopPropagation.

(** The result of running (a part of) a handler: the live state, the
    effects performed in order, and the value; [None] is a thrown exception
    or rejected promise that nothing caught. *)
Record Outcome (A : Type) : Type := {
  live : State;
  effects : list Effect;
  value : option A
}.

Definition M (A : Type) : Type := World -> State -> Outcome A.

Definition ret {A : Type} (a : A) : M A :=
  fun _ s => {| live := s; effects := []; value := Some a |}.

Definition bind {A B : Type} (m : M A) (f : A -> M B) : M B :=
  fun w s =>
    let o := m w s in
    match value o with
    | None => {| live := live o; effects := effects o; value := None |}
    | Some a =>
        let o' := f a w (live o) in
        {| live := live o'; effects := effects o ++ effects o';
           value := value o' |}
    end.

(** An effect in front of the effects of an outcome. *)
Definition after (e : Effect) {A : Type} (o : Outcome A) : Outcome A :=
  {| live := live o; effects := e :: effects o; value := value o |}.

Declare Scope handler_scope.
Delimit Scope handler_scope with handler.
Notation "x <- m ;; k" := (bind m (fun x => k))
  (at level 61, m at next level, right associativity) : handler_scope.
Notation "m ;; k" := (bind m (fun _ => k))
  (at level 61, right associativity) : handler_scope.
Local Open Scope handler_scope.

Definition perform {A : Type} (e : Effect) (answer : World -> option A) : M A :=
  fun w s => {| live := s; effects := [e]; value := answer w |}.

Definition modify (f : State -> State) : M unit :=
  fun _ s => {| live := f s; effects := []; value := Some tt |}.

(** A handler is a closure over the state of the render that created it. *)
Definition Handler : Type := State -> M unit.

(** An event reaches a handler of the current render. *)
Definition fire (h : Handler) (w : World) (s : State) : Outcome unit := h s w s.

(** ** Setters of the state variables *)

Definition setPins (v : list Pin) : M unit :=
  modify (fun s =>
    {| pins := v; showModal := showModal s; pendingPin := pendingPin s;
       pinTitle := pinTitle s; pinDescription := pinDescription s;
       pinCategory := pinCategory s; isLoadingAddress := isLoadingAddress s;
       editingPin := editingPin s; showEditModal := showEditModal s |}).

Definition setShowModal (v : bool) : M unit :=
  modify (fun s =>
    {| pins := pins s; showModal := v; pendingPin := pendingPin s;
       pinTitle := pinTitle s; pinDescription := pinDescription s;
       pinCategory := pinCategory s; isLoadingAddress := isLoadingAddress s;
       editingPin := editingPin s; showEditModal := showEditModal s |}).

Definition setPendingPin (v : option LatLng) : M unit :=
  modify (fun s =>
    {| pins := pins s; showModal := showModal s; pendingPin := v;
       pinTitle := pinTitle s; pinDescription := pinDescription s;
       pinCategory := pinCategory s; isLoadingAddress := isLoadingAddress s;
       editingPin := editingPin s; showEditModal := showEditModal s |}).

Definition setPinTitle (v : jsstring) : M unit :=
  modify (fun s =>
    {| pins := pins s; showModal := showModal s; pendingPin := pendingPin s;
       pinTitle := v; pinDescription := pinDescription s;
       pinCategory := pinCategory s; isLoadingAddress := isLoadingAddress s;
       editingPin := editingPin s; showEditModal := showEditModal s |}).

Definition setPinDescription (v : jsstring) : M unit :=
  modify (fun s =>
    {| pins := pins s; showModal := showModal s; pendingPin := pendingPin s;
       pinTitle := pinTitle s; pinDescription := v;
       pinCategory := pinCategory s; isLoadingAddress := isLoadingAddress s;
       editingPin := editingPin s; showEditModal := showEditModal s |}).

Definition setPinCategory (v : PinCategory) : M unit :=
  modify (fun s =>
    {| pins := pins s; showModal := showModal s; pendingPin := pendingPin s;
       pinTitle := pinTitle s; pinDescription := pinDescription s;
       pinCategory := v; isLoadingAddress := isLoadingAddress s;
       editingPin := editingPin s; showEditModal := showEditModal s |}).

Definition setIsLoadingAddress (v : bool) : M unit :=
  modify (fun s =>
    {| pins := pins s; showModal := showModal s; pendingPin := pendingPin s;
       pinTitle := pinTitle s; pinDescription := pinDescription s;
       pinCategory := pinCategory s; isLoadingAddress := v;
       editingPin := editingPin s; showEditModal := showEditModal s |}).

Definition setEditingPin (v : option Pin) : M unit :=
  modify (fun s =>
    {| pins := pins s; showModal := showModal s; pendingPin := pendingPin s;
       pinTitle := pinTitle s; pinDescription := pinDescription s;
       pinCategory := pinCategory s; isLoadingAddress := isLoadingAddress s;
       editingPin := v; showEditModal := showEditModal s |}).

Definition setShowEditModal (v : bool) : M unit :=
  modify (fun s =>
    {| pins := pins s; showModal := showModal s; pendingPin := pendingPin s;
       pinTitle := pinTitle s; pinDescription := pinDescription s;
       pinCategory := pinCategory s; isLoadingAddress := isLoadingAddress s;
       editingPin := editingPin s; showEditModal := v |}).

(** ** The world's services *)

(** [await fetch(url)] followed by [await response.json()]. *)
Definition fetchJsonOf (url : jsstring) : M GeoData :=
  perform (Fetch url) (fun w => fetchJson w url).

(** [Date.now()] *)
Definition now : M Z := fun w s => ret (dateNow w) w s.

(** [window.confirm(message)] *)
Definition confirm (message : jsstring) : M bool :=
  perform (ConfirmDialog message) (fun w => Some (windowConfirm w)).

(** [event.stopPropagation()] *)
Definition stopPropagation : M unit :=
  perform StopPropagation (fun _ => Some tt).

(* ================================================================== *)
(** * Reverse geocoding *)
(* ================================================================== *)

(** [const googleMapsUrl] of [createAddressLink]. *)
Definition googleMapsUrl (lat lng : float) : jsstring :=
  str "https://www.google.com/maps?q=" ++ numToString lat
    ++ str "," ++ numToString lng.

(** [const shortAddress] of [createAddressLink]. *)
Definition shortAddress (address : jsstring) : jsstring :=
  let parts := split 44%N address in
  trim (join (str " ") (slice 0 2 parts)).

(** No code unit of [s] is a comma. *)
Definition commaFree (s : jsstring) : bool :=
  forallb (fun x => negb (x =? 44)%N) s.

(** [createAddressLink]: the address as the markup of a hyperlink. *)
Definition createAddressLink (address : jsstring) (lat lng : float) : jsstring :=
  str "<a href=" ++ dq ++ googleMapsUrl lat lng ++ dq
    ++ str " target=" ++ dq ++ str "_blank" ++ dq
    ++ str " rel=" ++ dq ++ str "noopener noreferrer" ++ dq
    ++ str " style=" ++ dq
    ++ str "color: #007bff; text-decoration: underline;" ++ dq
    ++ str ">" ++ shortAddress address ++ str "</a>".

(** The URL [getAddress] requests. *)
Definition reverseUrl (lat lng : float) : jsstring :=
  str "https://nominatim.openstreetmap.org/reverse?format=json&lat="
    ++ numToString lat ++ str "&lon=" ++ numToString lng.

(** [v || fallback] for an optional string [v]: absent and empty are falsy. *)
Definition orElse (v : option jsstring) (fallback : jsstring) : jsstring :=
  match v with
  | Some s => if truthy s then s else fallback
  | None => fallback
  end.

(** [getAddress] *)
Definition getAddress (lat lng : float) : M jsstring :=
  data <- fetchJsonOf (reverseUrl lat lng) ;;
  let address := orElse (display_name data) (str "Address not found") in
  ret (createAddressLink address lat lng).

(* ================================================================== *)
(** * The handlers of the [Map] component *)
(* ================================================================== *)

(** [handleMapClick] *)
Definition handleMapClick (lat lng : float) : Handler := fun _ =>
  setPendingPin (Some {| ll_lat := lat; ll_lng := lng |}) ;;
  setShowModal true ;;
  setPinTitle [] ;;
  setPinDescription [] ;;
  setPinCategory restaurant.

(** [const newPin] of [addPin]: [stamp] is the value of [Date.now()],
    [address] the resolved value of [getAddress]. *)
Definition newPin (r : State) (pending : LatLng) (stamp : Z)
    (address : jsstring) : Pin :=
  {| id := stamp;
     lat := ll_lat pending;
     lng := ll_lng pending;
     title := trim (pinTitle r);
     description := trim (pinDescription r);
     category := pinCategory r;
     address := Some address |}.

(** [addPin].  [pins], [pendingPin] and the form fields are those of the
    render [r] the handler was created in, also after the [await]. *)
Definition addPin : Handler := fun r =>
  match pendingPin r with
  | Some pending =>
      if truthy (trim (pinTitle r)) then
        setIsLoadingAddress true ;;
        address <- getAddress (ll_lat pending) (ll_lng pending) ;;
        stamp <- now ;;
        setPins (pins r ++ [newPin r pending stamp address]) ;;
        setShowModal false ;;
        setPendingPin None ;;
        setPinTitle [] ;;
        setPinDescription [] ;;
        setPinCategory restaurant ;;
        setIsLoadingAddress false
      else ret tt
  | None => ret tt
  end.

(** [cancelPin] *)
Definition cancelPin : Handler := fun _ =>
  setShowModal false ;;
  setPendingPin None ;;
  setPinTitle [] ;;
  setPinDescription [] ;;
  setPinCategory restaurant ;;
  setIsLoadingAddress false.

(** [deletePin] *)
Definition deletePin (pinId : Z) : Handler := fun r =>
  stopPropagation ;;
  yes <- confirm (str "Are you sure you want to delete this pin?") ;;
  if yes then
    setPins (filter (fun pin => negb (id pin =? pinId)%Z) (pins r))
  else ret tt.

(** [editPin] *)
Definition editPin (pin : Pin) : Handler := fun _ =>
  stopPropagation ;;
  setEditingPin (Some pin) ;;
  setPinTitle (title pin) ;;
  setPinDescription (description pin) ;;
  setPinCategory (category pin) ;;
  setShowEditModal true.

(** [const updatedPin] of [updatePin]: [editing] with the form's fields. *)
Definition updatedPin (editing : Pin) (r : State) : Pin :=
  {| id := id editing;
     lat := lat editing;
     lng := lng editing;
     title := trim (pinTitle r);
     description := trim (pinDescription r);
     category := pinCategory r;
     address := address editing |}.

(** [updatePin] *)
Definition updatePin : Handler := fun r =>
  match editingPin r with
  | Some editing =>
      if truthy (trim (pinTitle r)) then
        setIsLoadingAddress true ;;
        setPins (map (fun pin => if (id pin =? id editing)%Z
                                 then updatedPin editing r else pin)
                     (pins r)) ;;
        setShowEditModal false ;;
        setEditingPin None ;;
        setPinTitle [] ;;
        setPinDescription [] ;;
        setPinCategory restaurant ;;
        setIsLoadingAddress false
      else ret tt
  | None => ret tt
  end.

(** [cancelEdit] *)
Definition cancelEdit : Handler := fun _ =>
  setShowEditModal false ;;
  setEditingPin None ;;
  setPinTitle [] ;;
  setPinDescription [] ;;
  setPinCategory restaurant ;;
  setIsLoadingAddress false.

(* ================================================================== *)
(** * The rendered view: which controls exist and are enabled *)
(* ================================================================== *)

(** [disabled={isLoadingAddress}] of both Cancel buttons. *)
Definition cancelDisabled (s : State) : bool := isLoadingAddress s.

(** [disabled={!pinTitle.trim() || isLoadingAddress}] of both submit
    buttons. *)
Definition submitDisabled (s : State) : bool :=
  negb (truthy (trim (pinTitle s))) || isLoadingAddress s.

(** What the user can do to the page. *)
Inductive Event : Type :=
| MapClick (lat lng : float)
| SelectCategory (v : PinCategory)
| TypeTitle (v : jsstring)
| TypeDescription (v : jsstring)
| ClickCancelCreate
| ClickCreate
| ClickCancelEdit
| ClickUpdate
| ClickEdit (pin : Pin)
| ClickDelete (pin : Pin).

(** The control of the event is in the render of [s], and enabled. *)
Definition offered (s : State) (e : Event) : Prop :=
  match e with
  | MapClick _ _ => True
  | SelectCategory _ | TypeTitle _ | TypeDescription _ =>
      showModal s = true \/ showEditModal s = true
  | ClickCancelCreate => showModal s = true /\ cancelDisabled s = false
  | ClickCreate => showModal s = true /\ submitDisabled s = false
  | ClickCancelEdit => showEditModal s = true /\ cancelDisabled s = false
  | ClickUpdate => showEditModal s = true /\ submitDisabled s = false
  | ClickEdit pin | ClickDelete pin => In pin (pins s)
  end.

(** The handler the JSX attaches to the control. *)
Definition handlerOf (e : Event) : Handler :=
  match e with
  | MapClick lat lng => handleMapClick lat lng
  | SelectCategory v => fun _ => setPinCategory v
  | TypeTitle v => fun _ => setPinTitle v
  | TypeDescription v => fun _ => setPinDescription v
  | ClickCancelCreate => cancelPin
  | ClickCreate => addPin
  | ClickCancelEdit => cancelEdit
  | ClickUpdate => updatePin
  | ClickEdit pin => editPin pin
  | ClickDelete pin => deletePin (id pin)
  end.

(** The states the page can get to from [s] by events on enabled
    controls, each handled to its end in some world. *)
Inductive reaches (s : State) : State -> Prop :=
| reaches_refl : reaches s s
| reaches_step (s' : State) (e : Event) (w : World) :
    reaches s s' -> offered s' e ->
    reaches s (live (fire (handlerOf e) w s')).

(** The create modal is on the page and the loading flag is set. *)
Definition stuck (s : State) : Prop :=
  showModal s = true /\ isLoadingAddress s = true.

(* ================================================================== *)
(** * Reading the address markup *)
(* ================================================================== *)

(** The popup inserts [pin.address] as markup ([dangerouslySetInnerHTML]).
    What the page then shows is what an HTML reader makes of the string: an
    element with attributes and a text.  The reader below covers start tags
    of the shape [<name key="value" ...>], attribute values in double
    quotes, and a text without markup closed by the element's end tag; it
    makes "link target" and "visible text" statements about the string. *)
Module Markup.

Record Element : Type := {
  tagName : jsstring;
  attributes : list (jsstring * jsstring);
  inner : jsstring
}.

Inductive Mode : Type :=
  InTagName | InAttrName | BeforeValue | InValue | AfterValue.

(** The start tag, from behind its [<]: [tg], [attrs], [key] and [val] are
    what has been read so far. *)
Fixpoint startTag (m : Mode) (tg : jsstring) (attrs : list (jsstring * jsstring))
    (key val : jsstring) (s : jsstring) : option Element :=
  match s with
  | [] => None
  | c :: s' =>
      match m with
      | InTagName =>
          if (c =? 62)%N then
            Some {| tagName := tg; attributes := attrs; inner := s' |}
          else if (c =? 32)%N then startTag InAttrName tg attrs [] [] s'
          else startTag InTagName (tg ++ [c]) attrs key val s'
      | InAttrName =>
          if (c =? 61)%N then startTag BeforeValue tg attrs key val s'
          else if ((c =? 62) || (c =? 32) || (c =? 34))%N%bool then None
          else startTag InAttrName tg attrs (key ++ [c]) val s'
      | BeforeValue =>
          if (c =? 34)%N then startTag InValue tg attrs key [] s' else None
      | InValue =>
          if (c =? 34)%N then
            startTag AfterValue tg (attrs ++ [(key, val)]) [] [] s'
          else startTag InValue tg attrs key (val ++ [c]) s'
      | AfterValue =>
          if (c =? 62)%N then
            Some {| tagName := tg; attributes := attrs; inner := s' |}
          else if (c =? 32)%N then startTag InAttrName tg attrs [] [] s'
          else None
      end
  end.

(** The element a markup string starts with. *)
Definition element (html : jsstring) : option Element :=
  match html with
  | 60%N :: s => startTag InTagName [] [] [] [] s
  | _ => None
  end.

(** The value of the attribute [key]. *)
Fixpoint attribute (key : jsstring) (attrs : list (jsstring * jsstring))
    : option jsstring :=
  match attrs with
  | [] => None
  | (k, v) :: rest => if JsString.eqb k key then Some v else attribute key rest
  end.

(** [s] up to its first code unit [c], and the rest from there. *)
Fixpoint upTo (c : N) (s : jsstring) : jsstring * jsstring :=
  match s with
  | [] => ([], [])
  | x :: s' =>
      if (x =? c)%N then ([], s)
      else let (a, b) := upTo c s' in (x :: a, b)
  end.

(** The text of an element whose content is text only, up to the end tag
    that ends the string. *)
Definition textContent (el : Element) : option jsstring :=
  let (text, rest) := upTo 60%N (inner el) in
  if JsString.eqb rest (str "</" ++ tagName el ++ str ">") then Some text
  else None.

(** The text the page shows for a markup string that is one element. *)
Definition visibleText (html : jsstring) : option jsstring :=
  match element html with
  | Some el => textContent el
  | None => None
  end.

(** A code unit other than the double quote. *)
Definition plain (c : N) : bool := negb (c =? 34)%N.

End Markup.
Import Markup.

(** ** A markup string as a sequence of elements *)

(** [s] without its prefix [p], when it starts with it. *)
Fixpoint stripPrefix (p s : jsstring) : option jsstring :=
  match p, s with
  | [], _ => Some s
  | c :: p', d :: s' => if (c =? d)%N then stripPrefix p' s' else None
  | _ :: _, [] => None
  end.

(** An element whose content is text only. *)
Record Node : Type := {
  nodeTag : jsstring;
  nodeAttributes : list (jsstring * jsstring);
  nodeText : jsstring
}.

(** The elements a markup string is made of, one behind the other: each a
    start tag, a text without [<], and the end tag of the element.  [None]
    when the string is not of that shape. *)
Fixpoint nodesFrom (fuel : nat) (html : jsstring) : option (list Node) :=
  match html with
  | [] => Some []
  | _ :: _ =>
      match fuel with
      | O => None
      | S fuel' =>
          match element html with
          | Some el =>
              let (text, rest) := upTo 60%N (inner el) in
              match stripPrefix (str "</" ++ tagName el ++ str ">") rest with
              | Some rest' =>
                  match nodesFrom fuel' rest' with
                  | Some more =>
                      Some ({| nodeTag := tagName el;
                               nodeAttributes := attributes el;
                               nodeText := text |} :: more)
                  | None => None
                  end
              | None => None
              end
          | None => None
          end
      end
  end.

Definition nodes (html : jsstring) : option (list Node) :=
  nodesFrom (List.length html) html.



(* ================================================================== *)
(** * Runs of events, and what the popup shows *)
(* ================================================================== *)

(** The events [es], one after the other, each handled to its end. *)
Definition play (w : World) (es : list Event) (s : State) : State :=
  fold_left (fun s' e => live (fire (handlerOf e) w s')) es s.

(** The pin added last. *)
Definition newestPin (s : State) : option Pin :=
  match rev (pins s) with
  | pin :: _ => Some pin
  | [] => None
  end.

(** The text the popup shows for the address of the pin added last. *)
Definition newestAddressText (s : State) : option jsstring :=
  match newestPin s with
  | Some pin =>
      match address pin with
      | Some html => visibleText html
      | None => None
      end
  | None => None
  end.

(** An event of the form's fields. *)
Definition formEvent (e : Event) : bool :=
  match e with
  | SelectCategory _ | TypeTitle _ | TypeDescription _ => true
  | _ => false
  end.

(** An edit flow: Edit on the popup of [pin], the events [typing] on the
    fields of the form, Update. *)
Definition editFlow (pin : Pin) (typing : list Event) : list Event :=
  ClickEdit pin :: typing ++ [ClickUpdate].

(** The form as Update finds it in that flow. *)
Definition editForm (w : World) (pin : Pin) (typing : list Event)
    (s : State) : State :=
  play w (ClickEdit pin :: typing) s.

(* ================================================================== *)
(** * The markers and their popups *)
(* ================================================================== *)


(** What the JSX renders for the store: one marker per pin, each with an
    icon and a popup. *)
Module View.

(** The options [getCategoryIcon] passes to [L.divIcon]. *)
Record DivIcon : Type := {
  html : jsstring;
  iconSize : Z * Z;
  iconAnchor : Z * Z;
  className : jsstring
}.

(** [const iconMap]: the glyph of a category, in UTF-16 code units (fork and
    knife with plate, beer mug, beach with umbrella, airplane, soccer ball;
    three of them followed by the variation selector U+FE0F). *)
Definition iconMap (category : PinCategory) : jsstring :=
  match category with
  | restaurant => [55356; 57213; 65039]%N
  | bar => [55356; 57210]%N
  | beach => [55356; 57302; 65039]%N
  | travel => [9992; 65039]%N
  | activity => [9917%N]
  end.

(** [getCategoryIcon] *)
Definition getCategoryIcon (category : PinCategory) : DivIcon :=
  {| html := str "<div style=" ++ dq ++ str "font-size: 24px;" ++ dq
               ++ str ">" ++ iconMap category ++ str "</div>";
     iconSize := (80, 80)%Z;
     iconAnchor := (15, 30)%Z;
     className := str "custom-marker" |}.

(** The string a member of [PinCategory] is. *)
Definition categoryName (category : PinCategory) : jsstring :=
  match category with
  | restaurant => str "restaurant"
  | bar => str "bar"
  | beach => str "beach"
  | travel => str "travel"
  | activity => str "activity"
  end.

(** The content of a [<Popup>]: the title, the category line, the
    description when [pin.description] is truthy, and the markup of the
    address line when [pin.address] is. *)
Record Popup : Type := {
  popupTitle : jsstring;
  popupCategory : jsstring;
  popupDescription : option jsstring;
  popupAddress : option jsstring
}.

Definition popupOf (pin : Pin) : Popup :=
  {| popupTitle := title pin;
     popupCategory := str "Category: " ++ categoryName (category pin);
     popupDescription :=
       if truthy (description pin) then Some (description pin) else None;
     popupAddress :=
       match address pin with
       | Some a =>
           if truthy a then Some (str "<strong>Address:</strong> " ++ a)
           else None
       | None => None
       end |}.

(** A [<Marker>] with its React key. *)
Record Marker : Type := {
  key : Z;
  position : float * float;
  icon : DivIcon;
  popup : Popup
}.

(** [pins.map((pin) => <Marker ...>)] *)
Definition markers (s : State) : list Marker :=
  map (fun pin =>
         {| key := id pin;
            position := (lat pin, lng pin);
            icon := getCategoryIcon (category pin);
            popup := popupOf pin |})
      (pins s).

End View.

(* ================================================================== *)
(** * The widget between two flows, and inside a request *)
(* ================================================================== *)

(** The state with the store [l] and nothing else: no modal, no pending pin,
    no pin under edit, the form at its defaults. *)
Definition resting (l : list Pin) : State :=
  {| pins := l; showModal := false; pendingPin := None;
     pinTitle := []; pinDescription := []; pinCategory := restaurant;
     isLoadingAddress := false; editingPin := None; showEditModal := false |}.

(** The part of [addPin] behind its [await]: it runs when the request is
    answered, on whatever the live state is by then, with the [pins],
    [pendingPin] and form fields of the render [r] in which Create was
    clicked. *)
Definition addPinAfter (r : State) (pending : LatLng) (address : jsstring)
    : M unit :=
  stamp <- now ;;
  setPins (pins r ++ [newPin r pending stamp address]) ;;
  setShowModal false ;;
  setPendingPin None ;;
  setPinTitle [] ;;
  setPinDescription [] ;;
  setPinCategory restaurant ;;
  setIsLoadingAddress false.

(** A pin as the widget stores it: a title that is not empty, title and
    description without white space at their ends, an address that is not
    empty. *)
Definition committed (pin : Pin) : Prop :=
  title pin <> []
  /\ trim (title pin) = title pin
  /\ trim (description pin) = description pin
  /\ exists a : jsstring, address pin = Some a /\ a <> [].

(** What holds of the modals in every state the page gets to. *)
Definition coherent (s : State) : Prop :=
  (showModal s = true <-> pendingPin s <> None)
  /\ (showEditModal s = true <-> editingPin s <> None)
  /\ Forall committed (pins s)
  /\ (forall pin : Pin, editingPin s = Some pin -> committed pin).

(** Some code unit of [s] is not white space. *)
Definition hasInk (s : jsstring) : bool :=
  existsb (fun c => negb (isWhiteSpace c)) s.

(* ================================================================== *)
(** * Scenarios *)
(* ================================================================== *)

(** Concrete runs, for the examples below: a click at the map's default
    centre, a title and a description typed into the create form. *)
Module Scenario.

Set Warnings "-inexact-float".
Definition centre : LatLng :=
  {| ll_lat := 43.64288135247436; ll_lng := -79.387089011289 |}.
Set Warnings "inexact-float".

Definition rawAddress : jsstring :=
  str "123 Main St, Springfield, Some County, Country".

(** A geocoder that answers every request with [rawAddress]. *)
Definition online : World :=
  {| fetchJson := fun _ => Some {| display_name := Some rawAddress |};
     dateNow := 1700000000000;
     windowConfirm := true |}.

(** A geocoder whose answers carry no [display_name]. *)
Definition nameless : World :=
  {| fetchJson := fun _ => Some {| display_name := None |};
     dateNow := 1700000000000;
     windowConfirm := true |}.

(** No network: every request is rejected. *)
Definition offline : World :=
  {| fetchJson := fun _ => None;
     dateNow := 1700000000000;
     windowConfirm := true |}.

(** The create form, open at [centre] and filled in. *)
Definition filled (t d : jsstring) (c : PinCategory) : State :=
  {| pins := []; showModal := true; pendingPin := Some centre;
     pinTitle := t; pinDescription := d; pinCategory := c;
     isLoadingAddress := false; editingPin := None; showEditModal := false |}.

Definition harbour : Pin :=
  {| id := 1700000000000; lat := ll_lat centre; lng := ll_lng centre;
     title := str "Harbour"; description := str "ferry";
     category := travel;
     address :=
       Some (createAddressLink rawAddress (ll_lat centre) (ll_lng centre)) |}.

Definition island : Pin :=
  {| id := 1700000050000; lat := 43.625; lng := -79.375;
     title := str "Island"; description := [];
     category := beach;
     address :=
       Some (createAddressLink (str "Address not found")
               43.625 (-79.375)) |}.

(** A store of two pins, no modal open. *)
Definition twoPins : State :=
  {| pins := [harbour; island]; showModal := false; pendingPin := None;
     pinTitle := []; pinDescription := []; pinCategory := restaurant;
     isLoadingAddress := false; editingPin := None; showEditModal := false |}.

(** The edit form open on [harbour], a new title typed. *)
Definition editing : State :=
  play online [ClickEdit harbour; TypeTitle (str "Pier")] twoPins.

(** The same, with [harbour] deleted from its popup meanwhile. *)
Definition orphaned : State :=
  play online [ClickEdit harbour; ClickDelete harbour; TypeTitle (str "Pier")]
    twoPins.

(** A title of a space, a tab and a no-break space. *)
Definition blank : jsstring := [32%N; 9%N; 160%N].

(** The page after its first create flow, at [centre]. *)
Definition stored : State :=
  play online
    [MapClick (ll_lat centre) (ll_lng centre);
     TypeTitle (str " Union Station"); ClickCreate]
    initial.

(** The pin of that flow. *)
Definition station : Pin :=
  {| id := 1700000000000; lat := ll_lat centre; lng := ll_lng centre;
     title := str "Union Station"; description := [];
     category := restaurant;
     address :=
       Some (createAddressLink rawAddress (ll_lat centre) (ll_lng centre)) |}.

(** A pin whose raw address was a piece of markup. *)
Definition marked : Pin :=
  {| id := 1700000070000; lat := 43.625; lng := -79.375;
     title := str "Cove"; description := [];
     category := beach;
     address :=
       Some (createAddressLink (str "<img src=x onerror=alert(1)>")
               43.625 (-79.375)) |}.

(** A display name that carries markup of its own. *)
Definition foreignName : jsstring :=
  str "</a><a href=" ++ dq ++ str "https://evil.example" ++ dq
    ++ str ">Main St".

(** A geocoder that answers every request with [foreignName]. *)
Definition foreign : World :=
  {| fetchJson := fun _ => Some {| display_name := Some foreignName |};
     dateNow := 1700000000000;
     windowConfirm := true |}.

(** A later moment of the same world. *)
Definition later : World :=
  {| fetchJson := fetchJson online;
     dateNow := 1700000090000;
     windowConfirm := true |}.

(** The create form open on a store of two pins. *)
Definition tower : State :=
  {| pins := [harbour; island]; showModal := true;
     pendingPin := Some centre;
     pinTitle := str "Tower"; pinDescription := []; pinCategory := activity;
     isLoadingAddress := false; editingPin := None; showEditModal := false |}.

End Scenario.

(* ================================================================== *)
(** * Lemmas on strings *)
(* ================================================================== *)

Lemma trimStart_blank (s : jsstring) :
  forallb isWhiteSpace s = true -> trimStart s = [].
Proof.
  induction s as [|c s IH]; simpl; [reflexivity|].
  intros H. apply andb_prop in H as [Hc Hs].
  rewrite Hc. auto.
Qed.

Lemma trim_blank (s : jsstring) :
  forallb isWhiteSpace s = true -> trim s = [].
Proof.
  intros H. unfold trim. rewrite (trimStart_blank s H). reflexivity.
Qed.

Lemma truthy_nonempty (s : jsstring) : s <> [] -> truthy s = true.
Proof. destruct s; [congruence | reflexivity]. Qed.

Lemma str_cons (a : ascii) (s : string) :
  str (String a s) = N_of_ascii a :: str s.
Proof. reflexivity. Qed.

Lemma forallb_firstn {A : Type} (p : A -> bool) (n : nat) (l : list A) :
  forallb p l = true -> forallb p (firstn n l) = true.
Proof.
  revert l; induction n as [|n IH]; intros [|x l]; simpl; auto.
  intros H. apply andb_prop in H as [-> Hl]. simpl. auto.
Qed.

Lemma forallb_skipn {A : Type} (p : A -> bool) (n : nat) (l : list A) :
  forallb p l = true -> forallb p (skipn n l) = true.
Proof.
  revert l; induction n as [|n IH]; intros [|x l]; simpl; auto.
  intros H. apply andb_prop in H as [_ Hl]. auto.
Qed.

Lemma forallb_repeat {A : Type} (p : A -> bool) (x : A) (n : nat) :
  p x = true -> forallb p (repeat x n) = true.
Proof. intros H. induction n; simpl; [reflexivity | now rewrite H]. Qed.

(* ================================================================== *)
(** * The output of Number::toString holds no double quote *)
(* ================================================================== *)

Lemma plain_string_of_uint (u : Decimal.uint) :
  forallb plain (str (NilEmpty.string_of_uint u)) = true.
Proof. induction u; simpl NilEmpty.string_of_uint; try rewrite str_cons; simpl; auto. Qed.

Lemma plain_digits (z : Z) : forallb plain (digits z) = true.
Proof. apply plain_string_of_uint. Qed.

Lemma plain_zeros (n : Z) : forallb plain (zeros n) = true.
Proof. apply forallb_repeat. reflexivity. Qed.

Ltac plain_pieces :=
  repeat (rewrite forallb_app; apply andb_true_intro; split);
  first [ reflexivity
        | apply plain_digits
        | apply plain_zeros
        | apply forallb_firstn; apply plain_digits
        | apply forallb_skipn; apply plain_digits ].

Lemma plain_layout (s k n : Z) : forallb plain (layout s k n) = true.
Proof.
  unfold layout.
  repeat match goal with
         | |- context [if ?b then _ else _] => destruct b
         end; plain_pieces.
Qed.

Lemma plain_finiteToString (m e : Z) :
  forallb plain (finiteToString m e) = true.
Proof.
  unfold finiteToString.
  destruct (shortest 20 m e (point m e) 1) as [[s k] n].
  apply plain_layout.
Qed.

Lemma plain_numToString (x : float) : forallb plain (numToString x) = true.
Proof.
  unfold numToString.
  destruct (Prim2SF x) as [sign|sign| |sign m e];
    try destruct sign; try reflexivity;
    rewrite ?forallb_app, ?plain_finiteToString; reflexivity.
Qed.

Lemma plain_googleMapsUrl (lat lng : float) :
  forallb plain (googleMapsUrl lat lng) = true.
Proof.
  unfold googleMapsUrl.
  rewrite !forallb_app, !plain_numToString. reflexivity.
Qed.

(* ================================================================== *)
(** * Reading back the markup of [createAddressLink] *)
(* ================================================================== *)

Lemma startTag_value (tg : jsstring) (attrs : list (jsstring * jsstring))
    (key : jsstring) (x : jsstring) :
  forallb plain x = true ->
  forall (val rest : jsstring),
    startTag InValue tg attrs key val (x ++ 34%N :: rest)
    = startTag AfterValue tg (attrs ++ [(key, val ++ x)]) [] [] rest.
Proof.
  intros Hx. induction x as [|c x IH]; intros val rest; simpl.
  - now rewrite app_nil_r.
  - simpl in Hx. apply andb_prop in Hx as [Hc Hx].
    unfold plain in Hc. apply negb_true_iff in Hc. rewrite Hc.
    rewrite (IH Hx). now rewrite <- app_assoc.
Qed.

(** The markup of an anchor with the four attributes of the source, for
    any link target without a double quote and any content. *)
Lemma element_anchor (url content : jsstring) :
  forallb plain url = true ->
  element
    (str "<a href=" ++ dq ++ url ++ dq
       ++ str " target=" ++ dq ++ str "_blank" ++ dq
       ++ str " rel=" ++ dq ++ str "noopener noreferrer" ++ dq
       ++ str " style=" ++ dq
       ++ str "color: #007bff; text-decoration: underline;" ++ dq
       ++ str ">" ++ content)
  = Some {| tagName := str "a";
            attributes :=
              [(str "href", url);
               (str "target", str "_blank");
               (str "rel", str "noopener noreferrer");
               (str "style",
                str "color: #007bff; text-decoration: underline;")];
            inner := content |}.
Proof.
  intros Hurl. simpl.
  rewrite (startTag_value _ _ _ url Hurl). reflexivity.
Qed.

Lemma element_createAddressLink (addr : jsstring) (lat lng : float) :
  element (createAddressLink addr lat lng)
  = Some {| tagName := str "a";
            attributes :=
              [(str "href", googleMapsUrl lat lng);
               (str "target", str "_blank");
               (str "rel", str "noopener noreferrer");
               (str "style",
                str "color: #007bff; text-decoration: underline;")];
            inner := shortAddress addr ++ str "</a>" |}.
Proof.
  unfold createAddressLink.
  apply element_anchor, plain_googleMapsUrl.
Qed.

Lemma upTo_text (c : N) (text rest : jsstring) :
  forallb (fun x => negb (x =? c)%N) text = true ->
  upTo c (text ++ c :: rest) = (text, c :: rest).
Proof.
  induction text as [|x text IH]; simpl; intros H.
  - now rewrite N.eqb_refl.
  - apply andb_prop in H as [Hx H]. apply negb_true_iff in Hx.
    rewrite Hx, (IH H). reflexivity.
Qed.

(** The text shown for the markup of [createAddressLink], when the short
    address holds no [<]. *)
Lemma visibleText_createAddressLink (addr : jsstring) (lat lng : float) :
  forallb (fun x => negb (x =? 60)%N) (shortAddress addr) = true ->
  visibleText (createAddressLink addr lat lng) = Some (shortAddress addr).
Proof.
  intros H. unfold visibleText.
  rewrite element_createAddressLink. unfold textContent.
  cbn [inner tagName].
  change (str "</a>") with (60%N :: str "/a>").
  rewrite (upTo_text _ _ _ H). reflexivity.
Qed.

(* ================================================================== *)
(** * What the handlers do *)
(* ================================================================== *)

Arguments trim : simpl never.
Arguments numToString : simpl never.
Arguments reverseUrl : simpl never.
Arguments googleMapsUrl : simpl never.
Arguments createAddressLink : simpl never.
Arguments shortAddress : simpl never.
Arguments str : simpl never.

(** ** Laws of the handler monad *)

Lemma bind_ret {A B : Type} (a : A) (k : A -> M B) (w : World) (s : State) :
  bind (ret a) k w s = k a w s.
Proof. unfold bind, ret; simpl. now destruct (k a w s). Qed.

Lemma bind_modify {B : Type} (f : State -> State) (k : unit -> M B)
    (w : World) (s : State) :
  bind (modify f) k w s = k tt w (f s).
Proof. unfold bind, modify; simpl. now destruct (k tt w (f s)). Qed.

Lemma bind_now {B : Type} (k : Z -> M B) (w : World) (s : State) :
  bind now k w s = k (dateNow w) w s.
Proof. unfold now. apply bind_ret. Qed.

Lemma bind_perform {A B : Type} (e : Effect) (answer : World -> option A)
    (k : A -> M B) (w : World) (s : State) :
  bind (perform e answer) k w s
  = match answer w with
    | Some a => after e (k a w s)
    | None => {| live := s; effects := [e]; value := None |}
    end.
Proof. unfold bind, perform; simpl. now destruct (answer w). Qed.

Lemma bind_assoc {A B C : Type} (m : M A) (f : A -> M B) (g : B -> M C)
    (w : World) (s : State) :
  bind (bind m f) g w s = bind m (fun x => bind (f x) g) w s.
Proof.
  unfold bind. destruct (m w s) as [s1 es1 [a|]]; simpl; [|reflexivity].
  destruct (f a w s1) as [s2 es2 [b|]]; simpl.
  - now rewrite app_assoc.
  - reflexivity.
Qed.

(** Runs a handler: its setters, clock and dialogs, up to a request. *)
Ltac run_handler :=
  unfold fire, getAddress, fetchJsonOf, confirm, stopPropagation,
    setPins, setShowModal, setPendingPin, setPinTitle, setPinDescription,
    setPinCategory, setIsLoadingAddress, setEditingPin, setShowEditModal;
  repeat (first [ rewrite bind_assoc | rewrite bind_modify | rewrite bind_now
                | rewrite bind_ret | rewrite bind_perform ];
          cbn [pins showModal pendingPin pinTitle pinDescription pinCategory
               isLoadingAddress editingPin showEditModal]).

(** [addPin] when the geocoder answers: one pin more, the form reset. *)
Lemma addPin_resolved (s : State) (w : World) (p : LatLng) (data : GeoData) :
  pendingPin s = Some p ->
  truthy (trim (pinTitle s)) = true ->
  fetchJson w (reverseUrl (ll_lat p) (ll_lng p)) = Some data ->
  fire addPin w s
  = {| live :=
         {| pins := pins s ++
              [newPin s p (dateNow w)
                 (createAddressLink
                    (orElse (display_name data) (str "Address not found"))
                    (ll_lat p) (ll_lng p))];
            showModal := false; pendingPin := None;
            pinTitle := []; pinDescription := []; pinCategory := restaurant;
            isLoadingAddress := false;
            editingPin := editingPin s; showEditModal := showEditModal s |};
       effects := [Fetch (reverseUrl (ll_lat p) (ll_lng p))];
       value := Some tt |}.
Proof.
  intros Hp Ht Hf. unfold fire, addPin. rewrite Hp, Ht.
  run_handler. rewrite Hf. run_handler. rewrite ?Hp. reflexivity.
Qed.

(** [addPin] when the request is rejected: the run ends in the rejection,
    behind [setIsLoadingAddress(true)]. *)
Lemma addPin_rejected (s : State) (w : World) (p : LatLng) :
  pendingPin s = Some p ->
  truthy (trim (pinTitle s)) = true ->
  fetchJson w (reverseUrl (ll_lat p) (ll_lng p)) = None ->
  fire addPin w s
  = {| live :=
         {| pins := pins s; showModal := showModal s;
            pendingPin := pendingPin s;
            pinTitle := pinTitle s; pinDescription := pinDescription s;
            pinCategory := pinCategory s;
            isLoadingAddress := true;
            editingPin := editingPin s; showEditModal := showEditModal s |};
       effects := [Fetch (reverseUrl (ll_lat p) (ll_lng p))];
       value := None |}.
Proof.
  intros Hp Ht Hf. unfold fire, addPin. rewrite Hp, Ht.
  run_handler. rewrite Hf. run_handler. rewrite ?Hp. reflexivity.
Qed.

(** [addPin] and [updatePin] behind a title that trims to nothing. *)
Lemma addPin_inert (s : State) (w : World) :
  truthy (trim (pinTitle s)) = false ->
  fire addPin w s = {| live := s; effects := []; value := Some tt |}.
Proof.
  intros Ht. unfold fire, addPin. rewrite Ht.
  destruct (pendingPin s); reflexivity.
Qed.

Lemma updatePin_inert (s : State) (w : World) :
  truthy (trim (pinTitle s)) = false ->
  fire updatePin w s = {| live := s; effects := []; value := Some tt |}.
Proof.
  intros Ht. unfold fire, updatePin. rewrite Ht.
  destruct (editingPin s); reflexivity.
Qed.

(** [updatePin] with a pin under edit and a title: the store mapped, the
    form reset. *)
Lemma updatePin_done (s : State) (w : World) (editing : Pin) :
  editingPin s = Some editing ->
  truthy (trim (pinTitle s)) = true ->
  fire updatePin w s
  = {| live :=
         {| pins := map (fun pin => if (id pin =? id editing)%Z
                                    then updatedPin editing s else pin)
                        (pins s);
            showModal := showModal s; pendingPin := pendingPin s;
            pinTitle := []; pinDescription := []; pinCategory := restaurant;
            isLoadingAddress := false;
            editingPin := None; showEditModal := false |};
       effects := [];
       value := Some tt |}.
Proof.
  intros He Ht. unfold fire, updatePin. rewrite He, Ht.
  run_handler. reflexivity.
Qed.

(** [deletePin], by the answer to the confirmation. *)
Lemma deletePin_pins (s : State) (w : World) (pinId : Z) :
  pins (live (fire (deletePin pinId) w s))
  = if windowConfirm w
    then filter (fun pin => negb (id pin =? pinId)%Z) (pins s)
    else pins s.
Proof.
  unfold deletePin. run_handler.
  destruct (windowConfirm w); reflexivity.
Qed.

Lemma editPin_live (s : State) (w : World) (pin : Pin) :
  live (fire (editPin pin) w s)
  = {| pins := pins s; showModal := showModal s; pendingPin := pendingPin s;
       pinTitle := title pin; pinDescription := description pin;
       pinCategory := category pin;
       isLoadingAddress := isLoadingAddress s;
       editingPin := Some pin; showEditModal := true |}.
Proof. unfold editPin. run_handler. reflexivity. Qed.

Lemma handleMapClick_live (s : State) (w : World) (lat lng : float) :
  live (fire (handleMapClick lat lng) w s)
  = {| pins := pins s; showModal := true;
       pendingPin := Some {| ll_lat := lat; ll_lng := lng |};
       pinTitle := []; pinDescription := []; pinCategory := restaurant;
       isLoadingAddress := isLoadingAddress s;
       editingPin := editingPin s; showEditModal := showEditModal s |}.
Proof. unfold handleMapClick. run_handler. reflexivity. Qed.

(* ================================================================== *)
(** * The pin store under [filter] and [map] *)
(* ================================================================== *)

Section Store.

Variable pinId : Z.

Let others (pin : Pin) : bool := negb (id pin =? pinId)%Z.

Lemma filter_absent (l : list Pin) :
  ~ In pinId (map id l) -> filter others l = l.
Proof.
  induction l as [|pin l IH]; simpl; intros H; [reflexivity|].
  unfold others at 1.
  destruct (Z.eqb_spec (id pin) pinId) as [E|E]; simpl.
  - exfalso. apply H. now left.
  - f_equal. apply IH. intros Hin. apply H. now right.
Qed.

Lemma filter_unique (before after : list Pin) (pin : Pin) :
  id pin = pinId ->
  NoDup (map id (before ++ pin :: after)) ->
  filter others (before ++ pin :: after) = before ++ after.
Proof.
  intros E Hnd. rewrite map_app in Hnd. simpl in Hnd.
  pose proof (NoDup_remove_2 _ _ _ Hnd) as Hout.
  rewrite filter_app. simpl. unfold others at 2.
  rewrite E, Z.eqb_refl. simpl.
  rewrite !filter_absent; [reflexivity| |];
    intros Hin; apply Hout; rewrite E; apply in_or_app; auto.
Qed.

Variable replacement : Pin.

Let swap (pin : Pin) : Pin :=
  if (id pin =? pinId)%Z then replacement else pin.

Lemma map_absent (l : list Pin) :
  ~ In pinId (map id l) -> map swap l = l.
Proof.
  induction l as [|pin l IH]; simpl; intros H; [reflexivity|].
  unfold swap at 1.
  destruct (Z.eqb_spec (id pin) pinId) as [E|E].
  - exfalso. apply H. now left.
  - f_equal. apply IH. intros Hin. apply H. now right.
Qed.

End Store.

(* ================================================================== *)
(** * Properties of the pin store *)
(* ================================================================== *)

(** C6.  In a store whose pin ids are unique, a confirmed [deletePin] of an
    id removes the pin with that id and leaves every other pin, in order;
    [deletePin] of an id that no pin of the store has leaves the store as
    it was. *)
Theorem deletePin_removes_exactly (s : State) (w : World) (pinId : Z) :
  (windowConfirm w = true ->
   NoDup (map id (pins s)) ->
   forall (before after : list Pin) (pin : Pin),
     pins s = before ++ pin :: after -> id pin = pinId ->
     pins (live (fire (deletePin pinId) w s)) = before ++ after)
  /\ (~ In pinId (map id (pins s)) ->
      pins (live (fire (deletePin pinId) w s)) = pins s).
Proof.
  rewrite deletePin_pins. split.
  - intros -> Hnd before after pin Hs E. rewrite Hs in *.
    now apply filter_unique.
  - intros Hout. destruct (windowConfirm w); [|reflexivity].
    now apply filter_absent.
Qed.

Lemma deletePin_removes_exactly_witness :
  pins (live (fire (deletePin 1700000000000) Scenario.online Scenario.twoPins))
  = [] ++ [Scenario.island]
  /\ pins (live (fire (deletePin 7) Scenario.online Scenario.twoPins))
     = [Scenario.harbour; Scenario.island].
Proof.
  split.
  - refine (proj1 (deletePin_removes_exactly Scenario.twoPins Scenario.online
                     1700000000000)
              eq_refl _ [] [Scenario.island] Scenario.harbour
              eq_refl eq_refl).
    repeat constructor; simpl; intuition discriminate.
  - refine (proj2 (deletePin_removes_exactly Scenario.twoPins Scenario.online
                     7) _).
    simpl; intuition discriminate.
Defined.

(** C7.  [updatePin] for a pin under edit whose id no pin of the store has
    leaves the store as it was, and its promise is fulfilled: nothing is
    thrown. *)
Theorem updatePin_unknown_id_noop (s : State) (w : World) :
  (forall editing : Pin,
      editingPin s = Some editing -> ~ In (id editing) (map id (pins s))) ->
  pins (live (fire updatePin w s)) = pins s
  /\ value (fire updatePin w s) = Some tt.
Proof.
  intros Hgone.
  destruct (truthy (trim (pinTitle s))) eqn:Ht.
  - destruct (editingPin s) as [editing|] eqn:He.
    + rewrite (updatePin_done s w He Ht). simpl. split; [|reflexivity].
      apply map_absent. now apply Hgone.
    + unfold fire, updatePin. rewrite He. now split.
  - rewrite (updatePin_inert s w Ht). now split.
Qed.

(** C10.  A completed [updatePin] keeps the length and the order of the
    store: at every position, a pin with the id of the pin under edit is
    replaced by the updated pin, which has that same id, and a pin with
    another id stays as it was. *)
Theorem updatePin_keeps_positions (s : State) (w : World) (editing : Pin) :
  editingPin s = Some editing ->
  truthy (trim (pinTitle s)) = true ->
  List.length (pins (live (fire updatePin w s))) = List.length (pins s)
  /\ id (updatedPin editing s) = id editing
  /\ forall (i : nat) (pin : Pin),
       nth_error (pins s) i = Some pin ->
       (id pin = id editing ->
        nth_error (pins (live (fire updatePin w s))) i
        = Some (updatedPin editing s))
       /\ (id pin <> id editing ->
           nth_error (pins (live (fire updatePin w s))) i = Some pin).
Proof.
  intros He Ht. rewrite (updatePin_done s w He Ht). cbn [live pins].
  split; [apply length_map|]. split; [reflexivity|].
  intros i pin Hi. rewrite nth_error_map, Hi. simpl.
  destruct (Z.eqb_spec (id pin) (id editing)); split; intros; congruence.
Qed.

(** C4.  With a title that is empty or holds white space only, [addPin] and
    [updatePin] leave the whole state, the pin store with it, as it was and
    perform no effect: no request goes out. *)
Theorem blank_title_submit_inert (s : State) (w : World) :
  forallb isWhiteSpace (pinTitle s) = true ->
  (live (fire addPin w s) = s /\ effects (fire addPin w s) = [])
  /\ (live (fire updatePin w s) = s /\ effects (fire updatePin w s) = []).
Proof.
  intros Hblank.
  assert (Ht : truthy (trim (pinTitle s)) = false)
    by now rewrite (trim_blank _ Hblank).
  rewrite (addPin_inert s w Ht), (updatePin_inert s w Ht). now repeat split.
Qed.

Lemma blank_title_submit_inert_witness :
  (live (fire addPin Scenario.online
           (Scenario.filled Scenario.blank (str "pier") travel))
   = Scenario.filled Scenario.blank (str "pier") travel
   /\ effects (fire addPin Scenario.online
                 (Scenario.filled Scenario.blank (str "pier") travel)) = [])
  /\ (live (fire updatePin Scenario.online
              (Scenario.filled Scenario.blank (str "pier") travel))
      = Scenario.filled Scenario.blank (str "pier") travel
      /\ effects (fire updatePin Scenario.online
                    (Scenario.filled Scenario.blank (str "pier") travel)) = []).
Proof.
  exact (blank_title_submit_inert
           (Scenario.filled Scenario.blank (str "pier") travel)
           Scenario.online eq_refl).
Defined.

Lemma updatePin_unknown_id_noop_witness :
  pins (live (fire updatePin Scenario.online Scenario.orphaned))
  = pins Scenario.orphaned
  /\ value (fire updatePin Scenario.online Scenario.orphaned) = Some tt.
Proof.
  apply (updatePin_unknown_id_noop Scenario.orphaned Scenario.online).
  intros editing He. vm_compute in He. injection He as <-.
  vm_compute. intuition discriminate.
Defined.

Lemma updatePin_keeps_positions_witness :
  List.length (pins (live (fire updatePin Scenario.online Scenario.editing)))
  = List.length (pins Scenario.editing)
  /\ id (updatedPin Scenario.harbour Scenario.editing) = id Scenario.harbour
  /\ forall (i : nat) (pin : Pin),
       nth_error (pins Scenario.editing) i = Some pin ->
       (id pin = id Scenario.harbour ->
        nth_error (pins (live (fire updatePin Scenario.online Scenario.editing))) i
        = Some (updatedPin Scenario.harbour Scenario.editing))
       /\ (id pin <> id Scenario.harbour ->
           nth_error (pins (live (fire updatePin Scenario.online Scenario.editing))) i
           = Some pin).
Proof.
  exact (@updatePin_keeps_positions Scenario.editing Scenario.online
           Scenario.harbour eq_refl eq_refl).
Defined.

(* ================================================================== *)
(** * The edit flow *)
(* ================================================================== *)

Lemma typeTitle_live (s : State) (w : World) (v : jsstring) :
  live (fire (handlerOf (TypeTitle v)) w s)
  = {| pins := pins s; showModal := showModal s; pendingPin := pendingPin s;
       pinTitle := v; pinDescription := pinDescription s;
       pinCategory := pinCategory s; isLoadingAddress := isLoadingAddress s;
       editingPin := editingPin s; showEditModal := showEditModal s |}.
Proof. reflexivity. Qed.

Lemma typeDescription_live (s : State) (w : World) (v : jsstring) :
  live (fire (handlerOf (TypeDescription v)) w s)
  = {| pins := pins s; showModal := showModal s; pendingPin := pendingPin s;
       pinTitle := pinTitle s; pinDescription := v;
       pinCategory := pinCategory s; isLoadingAddress := isLoadingAddress s;
       editingPin := editingPin s; showEditModal := showEditModal s |}.
Proof. reflexivity. Qed.

Lemma selectCategory_live (s : State) (w : World) (v : PinCategory) :
  live (fire (handlerOf (SelectCategory v)) w s)
  = {| pins := pins s; showModal := showModal s; pendingPin := pendingPin s;
       pinTitle := pinTitle s; pinDescription := pinDescription s;
       pinCategory := v; isLoadingAddress := isLoadingAddress s;
       editingPin := editingPin s; showEditModal := showEditModal s |}.
Proof. reflexivity. Qed.

(** Events of the form's fields change neither the store nor the pin
    under edit. *)
Lemma typing_frame (w : World) (typing : list Event) (s : State) :
  forallb formEvent typing = true ->
  pins (play w typing s) = pins s
  /\ editingPin (play w typing s) = editingPin s.
Proof.
  revert s. induction typing as [|e typing IH]; intros s H; [now split|].
  simpl in H. apply andb_prop in H as [He H].
  unfold play in *. cbn [fold_left].
  destruct (IH (live (fire (handlerOf e) w s)) H) as [-> ->].
  destruct e; try discriminate He.
  - now rewrite selectCategory_live.
  - now rewrite typeTitle_live.
  - now rewrite typeDescription_live.
Qed.

Lemma editForm_frame (w : World) (pin : Pin) (typing : list Event)
    (s : State) :
  forallb formEvent typing = true ->
  pins (editForm w pin typing s) = pins s
  /\ editingPin (editForm w pin typing s) = Some pin.
Proof.
  intros H. unfold editForm, play. cbn [fold_left].
  change (handlerOf (ClickEdit pin)) with (editPin pin).
  destruct (typing_frame w typing (live (fire (editPin pin) w s)) H)
    as [Hp He].
  unfold play in Hp, He. rewrite Hp, He, editPin_live. now split.
Qed.

Lemma editFlow_update (w : World) (pin : Pin) (typing : list Event)
    (s : State) :
  play w (editFlow pin typing) s
  = live (fire updatePin w (editForm w pin typing s)).
Proof.
  unfold editFlow, editForm, play.
  rewrite app_comm_cons, fold_left_app. reflexivity.
Qed.

(** C5.  After an edit flow on a pin of the store (Edit on its popup, any
    events on the fields of the form, Update with a title that does not
    trim to nothing) the pin at the position of the edited pin has the id,
    latitude, longitude and address the edited pin had; its title,
    description and category are those of the form. *)
Theorem edit_flow_keeps_identity (s : State) (w : World) (i : nat) (pin : Pin)
    (typing : list Event) :
  nth_error (pins s) i = Some pin ->
  forallb formEvent typing = true ->
  truthy (trim (pinTitle (editForm w pin typing s))) = true ->
  exists pin' : Pin,
    nth_error (pins (play w (editFlow pin typing) s)) i = Some pin'
    /\ id pin' = id pin /\ lat pin' = lat pin /\ lng pin' = lng pin
    /\ address pin' = address pin
    /\ title pin' = trim (pinTitle (editForm w pin typing s))
    /\ description pin' = trim (pinDescription (editForm w pin typing s))
    /\ category pin' = pinCategory (editForm w pin typing s).
Proof.
  intros Hi Hform Ht.
  destruct (editForm_frame w pin typing s Hform) as [Hp He].
  rewrite editFlow_update, (updatePin_done _ w He Ht). cbn [live pins].
  rewrite Hp, nth_error_map, Hi. simpl. rewrite Z.eqb_refl.
  eexists. split; [reflexivity|]. now repeat split.
Qed.

Lemma edit_flow_keeps_identity_witness :
  exists pin' : Pin,
    nth_error
      (pins (play Scenario.online
               (editFlow Scenario.harbour
                  [TypeTitle (str " Pier "); SelectCategory bar])
               Scenario.twoPins)) 0
    = Some pin'
    /\ id pin' = id Scenario.harbour /\ lat pin' = lat Scenario.harbour
    /\ lng pin' = lng Scenario.harbour
    /\ address pin' = address Scenario.harbour
    /\ title pin' = trim (str " Pier ")
    /\ description pin' = trim (str "ferry")
    /\ category pin' = bar.
Proof.
  exact (@edit_flow_keeps_identity Scenario.twoPins Scenario.online 0
           Scenario.harbour [TypeTitle (str " Pier "); SelectCategory bar]
           eq_refl eq_refl eq_refl).
Defined.

(* ================================================================== *)
(** * The short address *)
(* ================================================================== *)

Lemma split_component (a s : jsstring) :
  commaFree a = true -> split 44%N (a ++ 44%N :: s) = a :: split 44%N s.
Proof.
  unfold commaFree. induction a as [|x a IH]; simpl; intros H; [reflexivity|].
  apply andb_prop in H as [Hx H]. apply negb_true_iff in Hx.
  rewrite Hx, (IH H). reflexivity.
Qed.

(* ================================================================== *)
(** * The create flow *)
(* ================================================================== *)

Lemma newestPin_added (s : State) (l : list Pin) (pin : Pin) :
  pins s = l ++ [pin] -> newestPin s = Some pin.
Proof.
  intros H. unfold newestPin. rewrite H, rev_app_distr. reflexivity.
Qed.

(** The text the popup shows for the pin [addPin] has just added. *)
Lemma addPin_address_text (s : State) (w : World) (p : LatLng)
    (data : GeoData) :
  pendingPin s = Some p ->
  truthy (trim (pinTitle s)) = true ->
  fetchJson w (reverseUrl (ll_lat p) (ll_lng p)) = Some data ->
  newestAddressText (live (fire addPin w s))
  = visibleText
      (createAddressLink
         (orElse (display_name data) (str "Address not found"))
         (ll_lat p) (ll_lng p)).
Proof.
  intros Hp Ht Hf. rewrite (addPin_resolved s w Hp Ht Hf).
  unfold newestAddressText, newestPin. cbn [live pins].
  rewrite rev_app_distr. reflexivity.
Qed.

(** C1 (as amended).  When the geocoder answers with the display name
    "123 Main St, Springfield, Some County, Country", the address stored by
    the create flow shows the text "123 Main St  Springfield": the first two
    comma-separated components, joined by a space in place of the comma (the
    second component keeps its own leading space), then trimmed. *)
Theorem create_flow_springfield_text (s : State) (w : World) (p : LatLng) :
  pendingPin s = Some p ->
  truthy (trim (pinTitle s)) = true ->
  fetchJson w (reverseUrl (ll_lat p) (ll_lng p))
  = Some {| display_name :=
              Some (str "123 Main St, Springfield, Some County, Country") |} ->
  newestAddressText (live (fire addPin w s))
  = Some (str "123 Main St  Springfield").
Proof.
  intros Hp Ht Hf. rewrite (addPin_address_text s w Hp Ht Hf).
  cbn [display_name]. 
  change (orElse (Some ?a) ?b) with a.
  rewrite visibleText_createAddressLink; [f_equal|]; now vm_compute.
Qed.

Lemma create_flow_springfield_text_witness :
  newestAddressText
    (live (fire addPin Scenario.online
             (Scenario.filled (str "Union Station") [] travel)))
  = Some (str "123 Main St  Springfield").
Proof.
  exact (@create_flow_springfield_text
           (Scenario.filled (str "Union Station") [] travel)
           Scenario.online Scenario.centre eq_refl eq_refl eq_refl).
Defined.

(** C1 as the specification has it fails: the text shown is not
    "123 Main St, Springfield". *)
Lemma create_flow_springfield_text_has_no_comma :
  newestAddressText
    (live (fire addPin Scenario.online
             (Scenario.filled (str "Union Station") [] travel)))
  <> Some (str "123 Main St, Springfield").
Proof. vm_compute. discriminate. Qed.

(** C8.  When the geocoder's answer has no [display_name], the create flow
    runs to its end (the promise of [addPin] is fulfilled) and the address
    stored shows the text "Address not found". *)
Theorem create_flow_missing_display_name (s : State) (w : World) (p : LatLng) :
  pendingPin s = Some p ->
  truthy (trim (pinTitle s)) = true ->
  fetchJson w (reverseUrl (ll_lat p) (ll_lng p))
  = Some {| display_name := None |} ->
  value (fire addPin w s) = Some tt
  /\ newestAddressText (live (fire addPin w s))
     = Some (str "Address not found").
Proof.
  intros Hp Ht Hf. split.
  - now rewrite (addPin_resolved s w Hp Ht Hf).
  - rewrite (addPin_address_text s w Hp Ht Hf).
    cbn [display_name orElse].
    rewrite visibleText_createAddressLink; [f_equal|]; now vm_compute.
Qed.

Lemma create_flow_missing_display_name_witness :
  value (fire addPin Scenario.nameless
           (Scenario.filled (str "Union Station") [] travel)) = Some tt
  /\ newestAddressText
       (live (fire addPin Scenario.nameless
                (Scenario.filled (str "Union Station") [] travel)))
     = Some (str "Address not found").
Proof.
  exact (@create_flow_missing_display_name
           (Scenario.filled (str "Union Station") [] travel)
           Scenario.nameless Scenario.centre eq_refl eq_refl eq_refl).
Defined.

(** C2 (as amended).  With a pending pin, a title that is trimmed and not
    empty, and a geocoder that answers, [addPin] appends exactly one pin to
    the store; the pin has the clicked coordinates, the title and the
    category of the form, the description of the form with the white space
    at its ends removed, and an address. *)
Theorem create_flow_appends_pin (s : State) (w : World) (p : LatLng)
    (data : GeoData) :
  pendingPin s = Some p ->
  trim (pinTitle s) = pinTitle s ->
  pinTitle s <> [] ->
  fetchJson w (reverseUrl (ll_lat p) (ll_lng p)) = Some data ->
  exists pin : Pin,
    pins (live (fire addPin w s)) = pins s ++ [pin]
    /\ lat pin = ll_lat p /\ lng pin = ll_lng p
    /\ title pin = pinTitle s
    /\ description pin = trim (pinDescription s)
    /\ category pin = pinCategory s
    /\ address pin <> None.
Proof.
  intros Hp Htrim Hne Hf.
  assert (Ht : truthy (trim (pinTitle s)) = true)
    by (rewrite Htrim; now apply truthy_nonempty).
  rewrite (addPin_resolved s w Hp Ht Hf). cbn [live pins].
  eexists. split; [reflexivity|]. cbn [lat lng title description category
                                        address newPin].
  repeat split; try assumption. discriminate.
Qed.

Lemma create_flow_appends_pin_witness :
  exists pin : Pin,
    pins (live (fire addPin Scenario.online
                  (Scenario.filled (str "Union Station")
                     (str " by the lake ") travel)))
    = [] ++ [pin]
    /\ lat pin = ll_lat Scenario.centre /\ lng pin = ll_lng Scenario.centre
    /\ title pin = str "Union Station"
    /\ description pin = trim (str " by the lake ")
    /\ category pin = travel
    /\ address pin <> None.
Proof.
  refine (@create_flow_appends_pin
            (Scenario.filled (str "Union Station") (str " by the lake ") travel)
            Scenario.online Scenario.centre _ eq_refl eq_refl _ eq_refl).
  discriminate.
Defined.

(** C2 as the specification has it fails: the pin added does not carry the
    description as given when that has white space at its ends. *)
Lemma create_flow_trims_description :
  exists pin : Pin,
    pins (live (fire addPin Scenario.online
                  (Scenario.filled (str "Union Station")
                     (str " by the lake ") travel)))
    = [pin]
    /\ description pin = str "by the lake"
    /\ description pin <> str " by the lake ".
Proof.
  eexists. split; [vm_compute; reflexivity|].
  split; [reflexivity | discriminate].
Qed.

(** The markup stored by the create flow starts with the start tag of an
    anchor whose [href] is https://www.google.com/maps?q=<lat>,<lng>, the two
    numbers being the clicked coordinates as [`${lat}`] and [`${lng}`] print
    them, whose [target] is [_blank] and whose [rel] is
    [noopener noreferrer], whatever address the geocoder resolved.  What
    follows that start tag is not said here. *)
Lemma stored_address_is_map_link (s : State) (w : World) (p : LatLng)
    (data : GeoData) :
  pendingPin s = Some p ->
  truthy (trim (pinTitle s)) = true ->
  fetchJson w (reverseUrl (ll_lat p) (ll_lng p)) = Some data ->
  exists (pin : Pin) (html : jsstring) (el : Element),
    newestPin (live (fire addPin w s)) = Some pin
    /\ address pin = Some html
    /\ element html = Some el
    /\ tagName el = str "a"
    /\ attribute (str "href") (attributes el)
       = Some (str "https://www.google.com/maps?q="
                 ++ numToString (ll_lat p) ++ str ","
                 ++ numToString (ll_lng p))
    /\ attribute (str "target") (attributes el) = Some (str "_blank")
    /\ attribute (str "rel") (attributes el)
       = Some (str "noopener noreferrer").
Proof.
  intros Hp Ht Hf. rewrite (addPin_resolved s w Hp Ht Hf).
  eexists. eexists. eexists.
  split; [eapply newestPin_added; reflexivity|].
  split; [reflexivity|].
  split; [apply element_createAddressLink|].
  now repeat split.
Qed.

Lemma stored_address_is_map_link_witness :
  exists (pin : Pin) (html : jsstring) (el : Element),
    newestPin (live (fire addPin Scenario.online
                       (Scenario.filled (str "Union Station") [] travel)))
    = Some pin
    /\ address pin = Some html
    /\ element html = Some el
    /\ tagName el = str "a"
    /\ attribute (str "href") (attributes el)
       = Some (str "https://www.google.com/maps?q="
                 ++ str "43.64288135247436" ++ str ","
                 ++ str "-79.387089011289")
    /\ attribute (str "target") (attributes el) = Some (str "_blank")
    /\ attribute (str "rel") (attributes el)
       = Some (str "noopener noreferrer").
Proof.
  exact (@stored_address_is_map_link
           (Scenario.filled (str "Union Station") [] travel)
           Scenario.online Scenario.centre
           {| display_name := Some Scenario.rawAddress |}
           eq_refl eq_refl eq_refl).
Defined.

(* ================================================================== *)
(** * A rejected geocoding request *)
(* ================================================================== *)

(** The filled create form is a state of the page: a click on the map at
    [Scenario.centre], then the three fields. *)
Lemma filled_reachable (t d : jsstring) (c : PinCategory) :
  reaches initial (Scenario.filled t d c).
Proof.
  change (Scenario.filled t d c)
    with (play Scenario.online
            [MapClick (ll_lat Scenario.centre) (ll_lng Scenario.centre);
             TypeTitle t; TypeDescription d; SelectCategory c] initial).
  unfold play. cbn [fold_left].
  repeat (apply reaches_step; [|simpl; auto]).
  apply reaches_refl.
Qed.

Lemma stuck_buttons (s : State) :
  stuck s -> cancelDisabled s = true /\ submitDisabled s = true.
Proof.
  intros [_ Hl]. unfold cancelDisabled, submitDisabled. rewrite Hl.
  split; [reflexivity | apply orb_true_r].
Qed.

(** No enabled control gets the page out of [stuck]: the only handlers that
    clear the loading flag are behind buttons that the flag disables. *)
Lemma stuck_step (s : State) (e : Event) (w : World) :
  stuck s -> offered s e -> stuck (live (fire (handlerOf e) w s)).
Proof.
  intros Hs Ho. destruct (stuck_buttons Hs) as [Hc Hb].
  destruct Hs as [Hm Hl].
  destruct e as [lat lng|v|v|v| | | | |pin|pin]; cbn [handlerOf offered] in *.
  - rewrite handleMapClick_live. now split.
  - now split.
  - now split.
  - now split.
  - destruct Ho as [_ Ho]. congruence.
  - destruct Ho as [_ Ho]. congruence.
  - destruct Ho as [_ Ho]. congruence.
  - destruct Ho as [_ Ho]. congruence.
  - rewrite editPin_live. now split.
  - unfold stuck, deletePin. run_handler.
    destruct (windowConfirm w); now split.
Qed.

Lemma stuck_forever (s s' : State) : stuck s -> reaches s s' -> stuck s'.
Proof.
  intros Hs Hr. induction Hr as [|s' e w _ IH Ho]; [assumption|].
  now apply stuck_step.
Qed.

(** [addPin] whose request is rejected leaves the page [stuck]. *)
Lemma addPin_rejected_stuck (s : State) (w : World) (p : LatLng) :
  showModal s = true ->
  pendingPin s = Some p ->
  truthy (trim (pinTitle s)) = true ->
  fetchJson w (reverseUrl (ll_lat p) (ll_lng p)) = None ->
  value (fire addPin w s) = None /\ stuck (live (fire addPin w s)).
Proof.
  intros Hm Hp Ht Hf. rewrite (addPin_rejected s w Hp Ht Hf).
  now repeat split.
Qed.

(** C3 fails on the code.  Create is clicked on the filled form while the
    network is down: the promise of [addPin] is rejected, and in every state
    the page can get to from there by enabled controls the create modal is
    still shown, the loading flag still set, and Cancel and Create still
    disabled. *)
Theorem create_flow_offline_stays_stuck (s' : State) :
  reaches
    (live (fire addPin Scenario.offline
             (Scenario.filled (str "Union Station") [] travel))) s' ->
  value (fire addPin Scenario.offline
           (Scenario.filled (str "Union Station") [] travel)) = None
  /\ showModal s' = true /\ isLoadingAddress s' = true
  /\ cancelDisabled s' = true /\ submitDisabled s' = true.
Proof.
  intros Hr.
  destruct (@addPin_rejected_stuck
              (Scenario.filled (str "Union Station") [] travel)
              Scenario.offline Scenario.centre
              eq_refl eq_refl eq_refl eq_refl) as [Hv Hs].
  split; [exact Hv|].
  pose proof (stuck_forever Hs Hr) as Hs'.
  destruct (stuck_buttons Hs') as [Hc Hb]. destruct Hs' as [Hm Hl].
  now repeat split.
Qed.

Lemma create_flow_offline_stays_stuck_witness :
  value (fire addPin Scenario.offline
           (Scenario.filled (str "Union Station") [] travel)) = None
  /\ showModal
       (live (fire (handlerOf (MapClick 43.625 (-79.375))) Scenario.online
                (live (fire addPin Scenario.offline
                         (Scenario.filled (str "Union Station") [] travel)))))
     = true
  /\ isLoadingAddress
       (live (fire (handlerOf (MapClick 43.625 (-79.375))) Scenario.online
                (live (fire addPin Scenario.offline
                         (Scenario.filled (str "Union Station") [] travel)))))
     = true
  /\ cancelDisabled
       (live (fire (handlerOf (MapClick 43.625 (-79.375))) Scenario.online
                (live (fire addPin Scenario.offline
                         (Scenario.filled (str "Union Station") [] travel)))))
     = true
  /\ submitDisabled
       (live (fire (handlerOf (MapClick 43.625 (-79.375))) Scenario.online
                (live (fire addPin Scenario.offline
                         (Scenario.filled (str "Union Station") [] travel)))))
     = true.
Proof.
  apply create_flow_offline_stays_stuck.
  apply reaches_step; [apply reaches_refl | exact I].
Defined.

(* ================================================================== *)
(** * Further properties of the modal and of the geocoding helper *)
(* ================================================================== *)

(** Cancel, in the create modal and in the edit modal, leaves the pin
    store as it was, closes the modal, drops the pending pin or the pin
    under edit, and resets the form to its defaults (empty title and
    description, category restaurant, loading flag cleared). *)
Lemma cancel_resets_form (s : State) (w : World) :
  live (fire cancelPin w s)
  = {| pins := pins s; showModal := false; pendingPin := None;
       pinTitle := []; pinDescription := []; pinCategory := restaurant;
       isLoadingAddress := false;
       editingPin := editingPin s; showEditModal := showEditModal s |}
  /\ live (fire cancelEdit w s)
     = {| pins := pins s; showModal := showModal s;
          pendingPin := pendingPin s;
          pinTitle := []; pinDescription := []; pinCategory := restaurant;
          isLoadingAddress := false;
          editingPin := None; showEditModal := false |}.
Proof.
  split.
  - unfold cancelPin. run_handler. reflexivity.
  - unfold cancelEdit. run_handler. reflexivity.
Qed.

(** A click on the map opens the create modal with the clicked
    coordinates as the pending pin and the form at its defaults; the store
    is as it was. *)
Lemma map_click_opens_create_modal (s : State) (w : World) (lat lng : float) :
  let s' := live (fire (handlerOf (MapClick lat lng)) w s) in
  showModal s' = true
  /\ pendingPin s' = Some {| ll_lat := lat; ll_lng := lng |}
  /\ pinTitle s' = [] /\ pinDescription s' = []
  /\ pinCategory s' = restaurant
  /\ pins s' = pins s.
Proof.
  cbn [handlerOf]. rewrite handleMapClick_live. now repeat split.
Qed.

(** X3.  A submitted create flow sends exactly one request, whether it is
    answered or rejected: to the reverse-geocoding URL with [format=json]
    and the pending pin's coordinates as [lat] and [lon]. *)
Theorem create_flow_one_request (s : State) (w : World) (p : LatLng) :
  pendingPin s = Some p ->
  truthy (trim (pinTitle s)) = true ->
  effects (fire addPin w s)
  = [Fetch (str "https://nominatim.openstreetmap.org/reverse?format=json&lat="
              ++ numToString (ll_lat p) ++ str "&lon="
              ++ numToString (ll_lng p))].
Proof.
  intros Hp Ht.
  destruct (fetchJson w (reverseUrl (ll_lat p) (ll_lng p))) as [data|] eqn:Hf.
  - now rewrite (addPin_resolved s w Hp Ht Hf).
  - now rewrite (addPin_rejected s w Hp Ht Hf).
Qed.

Lemma create_flow_one_request_witness :
  effects (fire addPin Scenario.offline
             (Scenario.filled (str "Union Station") [] travel))
  = [Fetch (str "https://nominatim.openstreetmap.org/reverse?format=json&lat="
              ++ str "43.64288135247436" ++ str "&lon="
              ++ str "-79.387089011289")].
Proof.
  exact (@create_flow_one_request
           (Scenario.filled (str "Union Station") [] travel)
           Scenario.offline Scenario.centre eq_refl eq_refl).
Defined.

(** X4.  The short address of a raw address with at least three
    comma-separated components is made of the first two alone: they are
    joined by a space and the result is trimmed. *)
Theorem shortAddress_first_two (a b rest : jsstring) :
  commaFree a = true -> commaFree b = true ->
  shortAddress (a ++ str "," ++ b ++ str "," ++ rest)
  = trim (a ++ str " " ++ b).
Proof.
  intros Ha Hb. unfold shortAddress.
  change (a ++ str "," ++ b ++ str "," ++ rest)
    with (a ++ 44%N :: b ++ 44%N :: rest).
  rewrite (split_component _ _ Ha), (split_component _ _ Hb).
  reflexivity.
Qed.

Lemma shortAddress_first_two_witness :
  shortAddress (str "123 Main St" ++ str "," ++ str " Springfield" ++ str ","
                  ++ str " Some County, Country")
  = trim (str "123 Main St" ++ str " " ++ str " Springfield").
Proof.
  exact (@shortAddress_first_two (str "123 Main St") (str " Springfield")
           (str " Some County, Country") eq_refl eq_refl).
Defined.

(** Edit on the popup of a pin opens the edit modal with the form
    filled from that pin and the pin kept as the one under edit; the store
    is as it was. *)
Lemma edit_click_fills_form (s : State) (w : World) (pin : Pin) :
  let s' := live (fire (handlerOf (ClickEdit pin)) w s) in
  showEditModal s' = true
  /\ editingPin s' = Some pin
  /\ pinTitle s' = title pin /\ pinDescription s' = description pin
  /\ pinCategory s' = category pin
  /\ pins s' = pins s.
Proof.
  cbn [handlerOf]. rewrite editPin_live. now repeat split.
Qed.

(* ================================================================== *)
(** * More on [trim] *)
(* ================================================================== *)

Lemma trimStart_fixed (s : jsstring) : trimStart (trimStart s) = trimStart s.
Proof.
  induction s as [|c s IH]; simpl; [reflexivity|].
  destruct (isWhiteSpace c) eqn:E; [exact IH|]. simpl. now rewrite E.
Qed.

Lemma trimStart_nil_blank (s : jsstring) :
  trimStart s = [] -> forallb isWhiteSpace s = true.
Proof.
  induction s as [|c s IH]; simpl; [reflexivity|].
  destruct (isWhiteSpace c); [exact IH | discriminate].
Qed.

Lemma trimStart_snoc (l : jsstring) (c : N) :
  isWhiteSpace c = false ->
  exists l' : jsstring, trimStart (l ++ [c]) = l' ++ [c].
Proof.
  intros Hc. induction l as [|x l [l' IH]]; simpl.
  - rewrite Hc. now exists [].
  - destruct (isWhiteSpace x).
    + now exists l'.
    + now exists (x :: l).
Qed.

Lemma trimEnd_keeps_start (s : jsstring) :
  trimStart s = s -> trimStart (trimEnd s) = trimEnd s.
Proof.
  destruct s as [|c s]; [reflexivity|]. simpl.
  destruct (isWhiteSpace c) eqn:Hc.
  - intros H. exfalso.
    assert (Hlen : List.length (trimStart s) <= List.length s).
    { clear. induction s as [|x s IH]; simpl; [auto|].
      destruct (isWhiteSpace x); simpl; auto. }
    rewrite H in Hlen. simpl in Hlen.
    exact (Nat.nle_succ_diag_l _ Hlen).
  - intros _. unfold trimEnd. simpl rev.
    destruct (@trimStart_snoc (rev s) c Hc) as [l' ->].
    rewrite rev_app_distr. simpl. now rewrite Hc.
Qed.

Lemma trimEnd_fixed (s : jsstring) : trimEnd (trimEnd s) = trimEnd s.
Proof.
  unfold trimEnd. now rewrite rev_involutive, trimStart_fixed.
Qed.

Lemma trim_idempotent (s : jsstring) : trim (trim s) = trim s.
Proof.
  unfold trim.
  rewrite (@trimEnd_keeps_start (trimStart s) (trimStart_fixed s)).
  apply trimEnd_fixed.
Qed.

Lemma forallb_rev_true {A : Type} (p : A -> bool) (l : list A) :
  forallb p l = true -> forallb p (rev l) = true.
Proof.
  rewrite !forallb_forall. intros H x Hx. apply H. now apply in_rev.
Qed.

Lemma forallb_trimStart (p : N -> bool) (s : jsstring) :
  forallb p s = true -> forallb p (trimStart s) = true.
Proof.
  induction s as [|c s IH]; simpl; [auto|]. intros H.
  destruct (isWhiteSpace c); [|exact H].
  apply andb_prop in H as [_ H]. auto.
Qed.

Lemma forallb_trim (p : N -> bool) (s : jsstring) :
  forallb p s = true -> forallb p (trim s) = true.
Proof.
  intros H. unfold trim, trimEnd.
  now apply forallb_rev_true, forallb_trimStart, forallb_rev_true,
    forallb_trimStart.
Qed.

Lemma trim_nil_blank (s : jsstring) :
  trim s = [] -> forallb isWhiteSpace s = true.
Proof.
  unfold trim, trimEnd. intros H.
  assert (H1 : trimStart (rev (trimStart s)) = []).
  { rewrite <- (rev_involutive (trimStart (rev (trimStart s)))), H.
    reflexivity. }
  apply trimStart_nil_blank, forallb_rev_true in H1.
  rewrite rev_involutive in H1.
  apply trimStart_nil_blank.
  destruct (trimStart s) as [|c t] eqn:E; [reflexivity|].
  exfalso. pose proof (trimStart_fixed s) as Hfix. rewrite E in Hfix.
  simpl in Hfix, H1. destruct (isWhiteSpace c); [|discriminate].
  assert (Hlen : forall u : jsstring,
             List.length (trimStart u) <= List.length u).
  { clear. induction u as [|x u IH]; simpl; [auto|].
    destruct (isWhiteSpace x); simpl; auto. }
  specialize (Hlen t). rewrite Hfix in Hlen. simpl in Hlen.
  exact (Nat.nle_succ_diag_l _ Hlen).
Qed.

Lemma truthy_trim_hasInk (s : jsstring) : truthy (trim s) = hasInk s.
Proof.
  unfold hasInk.
  destruct (forallb isWhiteSpace s) eqn:E.
  - rewrite (trim_blank _ E). symmetry. apply not_true_is_false.
    intros H. apply existsb_exists in H as [c [Hin Hc]].
    rewrite forallb_forall in E. rewrite (E c Hin) in Hc. discriminate.
  - assert (Hne : trim s <> []).
    { intros H. apply trim_nil_blank in H. congruence. }
    rewrite (@truthy_nonempty _ Hne). symmetry.
    clear Hne. induction s as [|c s IH]; simpl in *; [discriminate|].
    destruct (isWhiteSpace c); simpl in *; auto.
Qed.

(* ================================================================== *)
(** * More on the short address *)
(* ================================================================== *)

Lemma split_commaFree (s : jsstring) :
  forallb commaFree (split 44%N s) = true.
Proof.
  induction s as [|c s IH]; simpl; [reflexivity|].
  destruct (c =? 44)%N eqn:E; [exact IH|].
  destruct (split 44%N s) as [|part parts]; simpl in *.
  - now rewrite E.
  - now rewrite E.
Qed.

Lemma split_whole (a : jsstring) :
  commaFree a = true -> split 44%N a = [a].
Proof.
  unfold commaFree. induction a as [|x a IH]; simpl; intros H; [reflexivity|].
  apply andb_prop in H as [Hx H]. apply negb_true_iff in Hx.
  rewrite Hx, (IH H). reflexivity.
Qed.

Lemma join_commaFree (sep : jsstring) (parts : list jsstring) :
  commaFree sep = true -> forallb commaFree parts = true ->
  commaFree (join sep parts) = true.
Proof.
  intros Hsep. induction parts as [|x [|y rest] IH]; intros H.
  - reflexivity.
  - simpl in *. now apply andb_prop in H as [-> _].
  - change (join sep (x :: y :: rest)) with (x ++ sep ++ join sep (y :: rest)).
    change (forallb commaFree (x :: y :: rest))
      with (commaFree x && forallb commaFree (y :: rest)) in H.
    apply andb_prop in H as [Hx H].
    unfold commaFree in *. rewrite !forallb_app, Hx, Hsep, (IH H).
    reflexivity.
Qed.

(** X6.  Whatever the raw address, the short address holds no comma and has
    no white space at its ends. *)
Theorem shortAddress_has_no_comma (address : jsstring) :
  commaFree (shortAddress address) = true
  /\ trim (shortAddress address) = shortAddress address.
Proof.
  unfold shortAddress. split; [|apply trim_idempotent].
  apply forallb_trim, join_commaFree; [reflexivity|].
  unfold slice. apply forallb_firstn. exact (split_commaFree address).
Qed.

(** X7.  A raw address without a comma is shown whole, trimmed; a raw
    address of two components is shown as both, the comma replaced by a
    space. *)
Theorem shortAddress_of_few_components (a : jsstring) :
  commaFree a = true ->
  shortAddress a = trim a
  /\ forall b : jsstring,
       commaFree b = true ->
       shortAddress (a ++ str "," ++ b) = trim (a ++ str " " ++ b).
Proof.
  intros Ha. unfold shortAddress. split.
  - now rewrite (split_whole _ Ha).
  - intros b Hb.
    change (a ++ str "," ++ b) with (a ++ 44%N :: b).
    now rewrite (split_component _ _ Ha), (split_whole _ Hb).
Qed.

Lemma shortAddress_of_few_components_witness :
  shortAddress (str " Toronto ") = trim (str " Toronto ")
  /\ forall b : jsstring,
       commaFree b = true ->
       shortAddress (str " Toronto " ++ str "," ++ b)
       = trim (str " Toronto " ++ str " " ++ b).
Proof.
  exact (@shortAddress_of_few_components (str " Toronto ") eq_refl).
Defined.

(** X8.  Nothing of the address is escaped: a raw address without a comma
    and without white space at its ends is copied as it is into the content
    of the anchor, and the popup inserts the anchor as it is behind its
    "Address:" label. *)
Theorem address_markup_is_not_escaped (pin : Pin) (raw : jsstring) :
  commaFree raw = true ->
  trim raw = raw ->
  address pin = Some (createAddressLink raw (lat pin) (lng pin)) ->
  exists el : Element,
    element (createAddressLink raw (lat pin) (lng pin)) = Some el
    /\ inner el = raw ++ str "</a>"
    /\ View.popupAddress (View.popupOf pin)
       = Some (str "<strong>Address:</strong> "
                 ++ createAddressLink raw (lat pin) (lng pin)).
Proof.
  intros Hc Ht Ha. eexists. split; [apply element_createAddressLink|].
  cbn [inner]. split.
  - unfold shortAddress. rewrite (split_whole _ Hc).
    change (join (str " ") (slice 0 2 [raw])) with raw. now rewrite Ht.
  - unfold View.popupOf. cbn [View.popupAddress]. rewrite Ha. reflexivity.
Qed.

Lemma address_markup_is_not_escaped_witness :
  exists el : Element,
    element (createAddressLink (str "<img src=x onerror=alert(1)>")
               (lat Scenario.marked) (lng Scenario.marked)) = Some el
    /\ inner el = str "<img src=x onerror=alert(1)>" ++ str "</a>"
    /\ View.popupAddress (View.popupOf Scenario.marked)
       = Some (str "<strong>Address:</strong> "
                 ++ createAddressLink (str "<img src=x onerror=alert(1)>")
                      (lat Scenario.marked) (lng Scenario.marked)).
Proof.
  exact (@address_markup_is_not_escaped Scenario.marked
           (str "<img src=x onerror=alert(1)>") eq_refl eq_refl eq_refl).
Defined.

(* ================================================================== *)
(** * Flows that start and end at rest *)
(* ================================================================== *)

(** Events of the form's fields change the form's fields only. *)
Lemma typing_form_only (w : World) (typing : list Event) (s : State) :
  forallb formEvent typing = true ->
  play w typing s
  = {| pins := pins s; showModal := showModal s; pendingPin := pendingPin s;
       pinTitle := pinTitle (play w typing s);
       pinDescription := pinDescription (play w typing s);
       pinCategory := pinCategory (play w typing s);
       isLoadingAddress := isLoadingAddress s;
       editingPin := editingPin s; showEditModal := showEditModal s |}.
Proof.
  revert s. induction typing as [|e typing IH]; intros s H.
  - now destruct s.
  - simpl in H. apply andb_prop in H as [He H].
    unfold play in *. cbn [fold_left].
    rewrite (IH (live (fire (handlerOf e) w s)) H) at 1.
    destruct e; try discriminate He.
    + now rewrite selectCategory_live.
    + now rewrite typeTitle_live.
    + now rewrite typeDescription_live.
Qed.

Lemma play_snoc (w : World) (es : list Event) (e : Event) (s : State) :
  play w (es ++ [e]) s = live (fire (handlerOf e) w (play w es s)).
Proof. unfold play. now rewrite fold_left_app. Qed.

Lemma play_cons (w : World) (e : Event) (es : list Event) (s : State) :
  play w (e :: es) s = play w es (live (fire (handlerOf e) w s)).
Proof. reflexivity. Qed.

(** X1.  From rest, a click on the map, any events on the fields of the
    form and Cancel lead back to the state before the click: the store, and
    everything else, is as it was. *)
Theorem cancel_create_leaves_no_trace (w : World) (l : list Pin)
    (lat lng : float) (typing : list Event) :
  forallb formEvent typing = true ->
  play w (MapClick lat lng :: typing ++ [ClickCancelCreate]) (resting l)
  = resting l.
Proof.
  intros H. rewrite app_comm_cons, play_snoc, play_cons.
  rewrite (typing_form_only w typing _ H).
  cbn [handlerOf]. rewrite handleMapClick_live.
  unfold cancelPin. run_handler. reflexivity.
Qed.

Lemma cancel_create_leaves_no_trace_witness :
  play Scenario.online
    (MapClick 43.625 (-79.375)
       :: [TypeTitle (str "Island"); SelectCategory beach]
       ++ [ClickCancelCreate])
    (resting [Scenario.harbour])
  = resting [Scenario.harbour].
Proof.
  exact (@cancel_create_leaves_no_trace Scenario.online [Scenario.harbour]
           43.625 (-79.375) [TypeTitle (str "Island"); SelectCategory beach]
           eq_refl).
Defined.

(** X2.  From rest, Edit on a popup, any events on the fields of the form
    and Cancel lead back to the state before: the pin is as it was. *)
Theorem cancel_edit_leaves_no_trace (w : World) (l : list Pin) (pin : Pin)
    (typing : list Event) :
  forallb formEvent typing = true ->
  play w (ClickEdit pin :: typing ++ [ClickCancelEdit]) (resting l)
  = resting l.
Proof.
  intros H. rewrite app_comm_cons, play_snoc, play_cons.
  rewrite (typing_form_only w typing _ H).
  cbn [handlerOf]. rewrite editPin_live.
  unfold cancelEdit. run_handler. reflexivity.
Qed.

Lemma cancel_edit_leaves_no_trace_witness :
  play Scenario.online
    (ClickEdit Scenario.harbour
       :: [TypeTitle (str "Pier"); TypeDescription (str "boats")]
       ++ [ClickCancelEdit])
    (resting [Scenario.harbour; Scenario.island])
  = resting [Scenario.harbour; Scenario.island].
Proof.
  exact (@cancel_edit_leaves_no_trace Scenario.online
           [Scenario.harbour; Scenario.island] Scenario.harbour
           [TypeTitle (str "Pier"); TypeDescription (str "boats")] eq_refl).
Defined.

(** X5.  From rest, a click on the map, any events on the fields of the
    form and Create with a title that does not trim to nothing, the request
    answered, lead to rest again with exactly one pin more: the pin has the
    clock's value as id, the clicked coordinates, the trimmed title and
    description and the category of the form, and the address link. *)
Theorem create_flow_ends_at_rest (w : World) (l : list Pin) (lat lng : float)
    (typing : list Event) (data : GeoData) :
  forallb formEvent typing = true ->
  truthy (trim (pinTitle (play w (MapClick lat lng :: typing) (resting l))))
  = true ->
  fetchJson w (reverseUrl lat lng) = Some data ->
  play w (MapClick lat lng :: typing ++ [ClickCreate]) (resting l)
  = resting
      (l ++ [{| id := dateNow w; lat := lat; lng := lng;
                title :=
                  trim (pinTitle
                          (play w (MapClick lat lng :: typing) (resting l)));
                description :=
                  trim (pinDescription
                          (play w (MapClick lat lng :: typing) (resting l)));
                category :=
                  pinCategory
                    (play w (MapClick lat lng :: typing) (resting l));
                address :=
                  Some (createAddressLink
                          (orElse (display_name data)
                             (str "Address not found")) lat lng) |}]).
Proof.
  intros H Ht Hf. rewrite app_comm_cons, play_snoc.
  set (form := play w (MapClick lat lng :: typing) (resting l)) in *.
  assert (Hform : form
    = {| pins := l; showModal := true;
         pendingPin := Some {| ll_lat := lat; ll_lng := lng |};
         pinTitle := pinTitle form; pinDescription := pinDescription form;
         pinCategory := pinCategory form; isLoadingAddress := false;
         editingPin := None; showEditModal := false |}).
  { unfold form at 1. rewrite play_cons, (typing_form_only w typing _ H).
    cbn [handlerOf]. rewrite handleMapClick_live. reflexivity. }
  assert (Hp : pendingPin form = Some {| ll_lat := lat; ll_lng := lng |})
    by now rewrite Hform.
  cbn [handlerOf].
  rewrite (@addPin_resolved form w _ data Hp Ht Hf). cbn [live].
  rewrite Hform. reflexivity.
Qed.

Lemma create_flow_ends_at_rest_witness :
  play Scenario.nameless
    (MapClick 43.625 (-79.375)
       :: [TypeTitle (str " Island "); SelectCategory beach]
       ++ [ClickCreate])
    (resting [Scenario.harbour])
  = resting
      ([Scenario.harbour]
         ++ [{| id := 1700000000000; lat := 43.625; lng := -79.375;
                title := trim (str " Island ");
                description := trim [];
                category := beach;
                address :=
                  Some (createAddressLink (str "Address not found")
                          43.625 (-79.375)) |}]).
Proof.
  exact (@create_flow_ends_at_rest Scenario.nameless [Scenario.harbour]
           43.625 (-79.375) [TypeTitle (str " Island "); SelectCategory beach]
           {| display_name := None |} eq_refl eq_refl eq_refl).
Defined.



(* ================================================================== *)
(** * More on the pin store *)
(* ================================================================== *)

(** X10.  [deletePin] asks for confirmation once, after stopping the click
    from reaching the map.  Declined, it changes nothing.  Confirmed, it
    changes the store only: no pin with the id is left, the pins with other
    ids are all kept, in order, also when several pins share the id; a
    second deletion of the id changes nothing more. *)
Theorem deletePin_in_general (s : State) (w : World) (pinId : Z) :
  effects (fire (deletePin pinId) w s)
  = [StopPropagation;
     ConfirmDialog (str "Are you sure you want to delete this pin?")]
  /\ (windowConfirm w = false -> live (fire (deletePin pinId) w s) = s)
  /\ (windowConfirm w = true ->
      ~ In pinId (map id (pins (live (fire (deletePin pinId) w s))))
      /\ (forall q : Pin,
             In q (pins (live (fire (deletePin pinId) w s)))
             <-> In q (pins s) /\ id q <> pinId)
      /\ pins (live (fire (deletePin pinId) w
                      (live (fire (deletePin pinId) w s))))
         = pins (live (fire (deletePin pinId) w s))).
Proof.
  split; [|split].
  - unfold deletePin. run_handler. now destruct (windowConfirm w).
  - intros Hno. unfold deletePin. run_handler. rewrite Hno.
    now destruct s.
  - intros Hyes. rewrite !deletePin_pins, Hyes.
    assert (Hin : forall q : Pin,
               In q (filter (fun pin => negb (id pin =? pinId)%Z) (pins s))
               <-> In q (pins s) /\ id q <> pinId).
    { intros q. rewrite filter_In, negb_true_iff, Z.eqb_neq. tauto. }
    split; [|split].
    + rewrite in_map_iff. intros [q [Hq Hqin]].
      apply Hin in Hqin. tauto.
    + exact Hin.
    + apply filter_absent. rewrite in_map_iff. intros [q [Hq Hqin]].
      apply Hin in Hqin. tauto.
Qed.

Lemma deletePin_in_general_witness :
  ~ In 1700000000000%Z
      (map id (pins (live (fire (deletePin 1700000000000) Scenario.online
                             (resting [Scenario.harbour; Scenario.island;
                                       Scenario.harbour])))))
  /\ (forall q : Pin,
         In q (pins (live (fire (deletePin 1700000000000) Scenario.online
                              (resting [Scenario.harbour; Scenario.island;
                                        Scenario.harbour]))))
         <-> In q (pins (resting [Scenario.harbour; Scenario.island;
                                  Scenario.harbour]))
             /\ id q <> 1700000000000%Z)
  /\ pins (live (fire (deletePin 1700000000000) Scenario.online
                   (live (fire (deletePin 1700000000000) Scenario.online
                            (resting [Scenario.harbour; Scenario.island;
                                      Scenario.harbour])))))
     = pins (live (fire (deletePin 1700000000000) Scenario.online
                     (resting [Scenario.harbour; Scenario.island;
                               Scenario.harbour]))).
Proof.
  exact (proj2 (proj2 (deletePin_in_general
                         (resting [Scenario.harbour; Scenario.island;
                                   Scenario.harbour])
                         Scenario.online 1700000000000)) eq_refl).
Defined.

Lemma map_id_updated (editing : Pin) (r : State) (l : list Pin) :
  map id (map (fun pin => if (id pin =? id editing)%Z
                          then updatedPin editing r else pin) l)
  = map id l.
Proof.
  rewrite map_map. apply map_ext. intros q.
  destruct (Z.eqb_spec (id q) (id editing)) as [E|E]; [|reflexivity].
  now rewrite E.
Qed.

Lemma updatePin_ids (s : State) (w : World) :
  map id (pins (live (fire updatePin w s))) = map id (pins s).
Proof.
  destruct (truthy (trim (pinTitle s))) eqn:Ht.
  - destruct (editingPin s) as [editing|] eqn:He.
    + rewrite (updatePin_done s w He Ht). apply map_id_updated.
    + unfold fire, updatePin. now rewrite He.
  - now rewrite (updatePin_inert s w Ht).
Qed.

Lemma addPin_ids (s : State) (w : World) :
  map id (pins (live (fire addPin w s))) = map id (pins s)
  \/ map id (pins (live (fire addPin w s))) = map id (pins s) ++ [dateNow w].
Proof.
  destruct (truthy (trim (pinTitle s))) eqn:Ht.
  - destruct (pendingPin s) as [p|] eqn:Hp.
    + destruct (fetchJson w (reverseUrl (ll_lat p) (ll_lng p)))
        as [data|] eqn:Hf.
      * right. rewrite (addPin_resolved s w Hp Ht Hf). cbn [live pins].
        now rewrite map_app.
      * left. now rewrite (addPin_rejected s w Hp Ht Hf).
    + left. unfold fire, addPin. now rewrite Hp.
  - left. now rewrite (addPin_inert s w Ht).
Qed.

Lemma NoDup_filter {A : Type} (f : A -> Z) (p : A -> bool) (l : list A) :
  NoDup (map f l) -> NoDup (map f (filter p l)).
Proof.
  induction l as [|x l IH]; simpl; intros H; [constructor|].
  inversion H as [|? ? Hx Hl]; subst.
  destruct (p x); simpl; [constructor|]; auto.
  intros Hin. apply Hx. rewrite in_map_iff in *.
  destruct Hin as [y [Hy Hyin]]. exists y. split; [exact Hy|].
  now apply filter_In in Hyin as [Hyin _].
Qed.

(** X11.  The ids of the store: no handler changes the id of a stored pin
    ([updatePin] leaves the list of ids as it is), and the ids stay pairwise
    distinct through every event as long as the clock, when a pin is
    created, shows a value that no stored pin has as id. *)
Theorem ids_stay_unique (s : State) (w : World) (e : Event) :
  NoDup (map id (pins s)) ->
  (e = ClickCreate -> ~ In (dateNow w) (map id (pins s))) ->
  NoDup (map id (pins (live (fire (handlerOf e) w s))))
  /\ map id (pins (live (fire updatePin w s))) = map id (pins s).
Proof.
  intros Hnd Hfresh. split; [|apply updatePin_ids].
  destruct e as [lat lng|v|v|v| | | | |pin|pin]; cbn [handlerOf].
  - now rewrite handleMapClick_live.
  - exact Hnd.
  - exact Hnd.
  - exact Hnd.
  - unfold cancelPin. run_handler. exact Hnd.
  - destruct (addPin_ids s w) as [-> | ->]; [exact Hnd|].
    apply NoDup_app; [exact Hnd | repeat constructor; intros [] |].
    intros x Hx [<- | []]. now apply Hfresh.
  - unfold cancelEdit. run_handler. exact Hnd.
  - now rewrite updatePin_ids.
  - now rewrite editPin_live.
  - rewrite deletePin_pins. destruct (windowConfirm w); [|exact Hnd].
    now apply NoDup_filter.
Qed.

Lemma ids_stay_unique_witness :
  NoDup (map id (pins (live (fire (handlerOf ClickCreate) Scenario.later
                               Scenario.tower))))
  /\ map id (pins (live (fire updatePin Scenario.later Scenario.tower)))
     = map id (pins Scenario.tower).
Proof.
  apply ids_stay_unique.
  - repeat constructor; simpl; intuition discriminate.
  - intros _. simpl. intuition discriminate.
Defined.

(** X12.  Creating a pin and then deleting it by its id gives the store back
    as it was, provided no pin of the store had the new pin's id. *)
Theorem create_then_delete (s : State) (w w' : World) (p : LatLng)
    (data : GeoData) :
  pendingPin s = Some p ->
  truthy (trim (pinTitle s)) = true ->
  fetchJson w (reverseUrl (ll_lat p) (ll_lng p)) = Some data ->
  ~ In (dateNow w) (map id (pins s)) ->
  windowConfirm w' = true ->
  pins (live (fire (deletePin (dateNow w)) w' (live (fire addPin w s))))
  = pins s.
Proof.
  intros Hp Ht Hf Hfresh Hyes.
  rewrite deletePin_pins, Hyes, (addPin_resolved s w Hp Ht Hf).
  cbn [live pins]. rewrite filter_app, (@filter_absent _ _ Hfresh).
  cbn [filter id newPin]. rewrite Z.eqb_refl. apply app_nil_r.
Qed.

Lemma create_then_delete_witness :
  pins (live (fire (deletePin (dateNow Scenario.online)) Scenario.nameless
                (live (fire addPin Scenario.online
                         (Scenario.filled (str "Union Station") [] travel)))))
  = pins (Scenario.filled (str "Union Station") [] travel).
Proof.
  refine (@create_then_delete
            (Scenario.filled (str "Union Station") [] travel)
            Scenario.online Scenario.nameless Scenario.centre
            {| display_name := Some Scenario.rawAddress |}
            eq_refl eq_refl eq_refl _ eq_refl).
  simpl. tauto.
Defined.

(* ================================================================== *)
(** * What holds in every state of the page *)
(* ================================================================== *)

Lemma committed_newPin (r : State) (p : LatLng) (stamp : Z) (a : jsstring) :
  truthy (trim (pinTitle r)) = true -> a <> [] ->
  committed (newPin r p stamp a).
Proof.
  intros Ht Ha. unfold committed. cbn [title description address newPin].
  repeat split; try apply trim_idempotent.
  - intros H. rewrite H in Ht. discriminate.
  - now exists a.
Qed.

Lemma committed_updatedPin (editing : Pin) (r : State) :
  truthy (trim (pinTitle r)) = true -> committed editing ->
  committed (updatedPin editing r).
Proof.
  intros Ht (_ & _ & _ & Ha). unfold committed.
  cbn [title description address updatedPin].
  repeat split; try apply trim_idempotent; [|exact Ha].
  intros H. rewrite H in Ht. discriminate.
Qed.

Lemma createAddressLink_nonempty (a : jsstring) (lat lng : float) :
  createAddressLink a lat lng <> [].
Proof. discriminate. Qed.

(** Splits [coherent] of an explicit state into its four parts and closes
    the ones that are about constants or are hypotheses. *)
Ltac modal_iff :=
  first [ assumption
        | split; intros ?H;
          first [ discriminate | reflexivity | congruence
                | exfalso; match goal with H : _ <> _ |- _ => now apply H end ] ].

Ltac coherent_parts :=
  unfold coherent;
  cbn [pins showModal pendingPin pinTitle pinDescription pinCategory
       isLoadingAddress editingPin showEditModal];
  split; [try modal_iff | split; [try modal_iff | split; try assumption]].

Lemma coherent_step (s : State) (e : Event) (w : World) :
  coherent s -> offered s e -> coherent (live (fire (handlerOf e) w s)).
Proof.
  intros Hcoh Ho. pose proof Hcoh as (Hc & He & Hs & Hp).
  destruct e as [lat lng|v|v|v| | | | |pin|pin]; cbn [offered] in Ho.
  - cbn [handlerOf]. rewrite handleMapClick_live. coherent_parts.
  - rewrite selectCategory_live. coherent_parts.
  - rewrite typeTitle_live. coherent_parts.
  - rewrite typeDescription_live. coherent_parts.
  - cbn [handlerOf]. unfold cancelPin. run_handler. cbn [live]. coherent_parts.
  - cbn [handlerOf].
    destruct (truthy (trim (pinTitle s))) eqn:Ht;
      [|rewrite (addPin_inert s w Ht); exact Hcoh].
    destruct (pendingPin s) as [p|] eqn:Hpend;
      [|unfold fire, addPin; rewrite Hpend; exact Hcoh].
    destruct (fetchJson w (reverseUrl (ll_lat p) (ll_lng p)))
      as [data|] eqn:Hf.
    + rewrite (addPin_resolved s w Hpend Ht Hf). cbn [live]. coherent_parts.
      apply Forall_app. split; [exact Hs|]. constructor; [|constructor].
      apply committed_newPin; [exact Ht | apply createAddressLink_nonempty].
    + rewrite (addPin_rejected s w Hpend Ht Hf). cbn [live]. coherent_parts.
      now rewrite Hpend.
  - cbn [handlerOf]. unfold cancelEdit. run_handler. cbn [live]. coherent_parts.
    intros q Hq. discriminate Hq.
  - cbn [handlerOf].
    destruct (truthy (trim (pinTitle s))) eqn:Ht;
      [|rewrite (updatePin_inert s w Ht); exact Hcoh].
    destruct (editingPin s) as [editing|] eqn:Hed;
      [|unfold fire, updatePin; rewrite Hed; exact Hcoh].
    rewrite (updatePin_done s w Hed Ht). cbn [live]. coherent_parts.
    + apply Forall_map. eapply Forall_impl; [|exact Hs]. intros q Hq.
      destruct (id q =? id editing)%Z; [|exact Hq].
      apply committed_updatedPin; auto.
    + intros q Hq. discriminate Hq.
  - cbn [handlerOf]. rewrite editPin_live. coherent_parts.
    intros q [= <-]. rewrite Forall_forall in Hs. now apply Hs.
  - cbn [handlerOf]. unfold deletePin. run_handler. cbn [live].
    destruct (windowConfirm w); cbn [live]; coherent_parts.
    rewrite Forall_forall in *. intros q Hq.
    apply filter_In in Hq as [Hq _]. now apply Hs.
Qed.

Lemma coherent_initial : coherent initial.
Proof.
  unfold initial. coherent_parts; [constructor | intros q Hq; discriminate Hq].
Qed.

(** X13.  In every state the page gets to from its initial state: the
    create modal is shown exactly when a pending pin is held, the edit modal
    exactly when a pin is under edit, and every pin of the store (and the
    pin under edit) has a title that is not empty, title and description
    without white space at their ends, and an address that is not empty. *)
Theorem reachable_states_are_coherent (s : State) :
  reaches initial s ->
  (showModal s = true <-> pendingPin s <> None)
  /\ (showEditModal s = true <-> editingPin s <> None)
  /\ Forall committed (pins s)
  /\ (forall pin : Pin, editingPin s = Some pin -> committed pin).
Proof.
  intros Hr. change (coherent s).
  induction Hr as [|s' e w _ IH Ho]; [exact coherent_initial|].
  now apply coherent_step.
Qed.

Lemma reachable_states_are_coherent_witness :
  (showModal (Scenario.filled (str "Union Station") [] travel) = true
   <-> pendingPin (Scenario.filled (str "Union Station") [] travel) <> None)
  /\ (showEditModal (Scenario.filled (str "Union Station") [] travel) = true
      <-> editingPin (Scenario.filled (str "Union Station") [] travel)
          <> None)
  /\ Forall committed (pins (Scenario.filled (str "Union Station") [] travel))
  /\ (forall pin : Pin,
         editingPin (Scenario.filled (str "Union Station") [] travel)
         = Some pin -> committed pin).
Proof.
  exact (@reachable_states_are_coherent
           (Scenario.filled (str "Union Station") [] travel)
           (filled_reachable (str "Union Station") [] travel)).
Defined.

Lemma submit_enabled (s : State) :
  submitDisabled s = false ->
  truthy (trim (pinTitle s)) = true /\ isLoadingAddress s = false.
Proof.
  unfold submitDisabled. intros H. apply orb_false_elim in H as [H1 H2].
  apply negb_false_iff in H1. now split.
Qed.

(** X14.  In every state the page gets to, a click on an enabled submit
    button is served: Create sends the request for the pending pin, Update
    rewrites the store for the pin under edit and closes the edit modal.
    The guards of [addPin] and [updatePin] never turn such a click down. *)
Theorem enabled_submit_is_served (s : State) (w : World) :
  reaches initial s ->
  (offered s ClickCreate ->
   exists p : LatLng,
     pendingPin s = Some p
     /\ effects (fire addPin w s)
        = [Fetch (reverseUrl (ll_lat p) (ll_lng p))])
  /\ (offered s ClickUpdate ->
      exists editing : Pin,
        editingPin s = Some editing
        /\ showEditModal (live (fire updatePin w s)) = false
        /\ pins (live (fire updatePin w s))
           = map (fun pin => if (id pin =? id editing)%Z
                             then updatedPin editing s else pin) (pins s)).
Proof.
  intros Hr. destruct (reachable_states_are_coherent Hr) as (Hc & He & _).
  split; intros [Hm Hb]; apply submit_enabled in Hb as [Ht _].
  - destruct (pendingPin s) as [p|] eqn:Hp;
      [|exfalso; now apply (proj1 Hc Hm)].
    exists p. split; [reflexivity|].
    destruct (fetchJson w (reverseUrl (ll_lat p) (ll_lng p)))
      as [data|] eqn:Hf.
    + now rewrite (addPin_resolved s w Hp Ht Hf).
    + now rewrite (addPin_rejected s w Hp Ht Hf).
  - destruct (editingPin s) as [editing|] eqn:Hed;
      [|exfalso; now apply (proj1 He Hm)].
    exists editing. rewrite (updatePin_done s w Hed Ht). now repeat split.
Qed.

Lemma enabled_submit_is_served_witness :
  (offered (Scenario.filled (str "Union Station") [] travel) ClickCreate ->
   exists p : LatLng,
     pendingPin (Scenario.filled (str "Union Station") [] travel) = Some p
     /\ effects (fire addPin Scenario.offline
                   (Scenario.filled (str "Union Station") [] travel))
        = [Fetch (reverseUrl (ll_lat p) (ll_lng p))])
  /\ (offered (Scenario.filled (str "Union Station") [] travel) ClickUpdate ->
      exists editing : Pin,
        editingPin (Scenario.filled (str "Union Station") [] travel)
        = Some editing
        /\ showEditModal
             (live (fire updatePin Scenario.offline
                      (Scenario.filled (str "Union Station") [] travel)))
           = false
        /\ pins (live (fire updatePin Scenario.offline
                         (Scenario.filled (str "Union Station") [] travel)))
           = map (fun pin => if (id pin =? id editing)%Z
                             then updatedPin editing
                                    (Scenario.filled (str "Union Station") []
                                       travel)
                             else pin)
                 (pins (Scenario.filled (str "Union Station") [] travel))).
Proof.
  exact (@enabled_submit_is_served
           (Scenario.filled (str "Union Station") [] travel) Scenario.offline
           (filled_reachable (str "Union Station") [] travel)).
Defined.

Lemma NoDup_map_unique {A : Type} (f : A -> Z) (l : list A) (x y : A) :
  NoDup (map f l) -> In x l -> In y l -> f x = f y -> x = y.
Proof.
  induction l as [|a l IH]; simpl; intros Hnd Hx Hy E; [contradiction|].
  inversion Hnd as [|? ? Ha Hl]; subst.
  destruct Hx as [<- | Hx], Hy as [<- | Hy]; auto.
  - exfalso. apply Ha. rewrite E. now apply in_map.
  - exfalso. apply Ha. rewrite <- E. now apply in_map.
Qed.

(** X15.  In a state the page gets to, with pairwise distinct ids, Edit on
    the popup of a stored pin followed at once by Update leaves the store
    exactly as it was: trimming a stored title or description again changes
    nothing. *)
Theorem untouched_edit_changes_nothing (s : State) (w : World) (pin : Pin) :
  reaches initial s ->
  NoDup (map id (pins s)) ->
  In pin (pins s) ->
  pins (play w (editFlow pin []) s) = pins s.
Proof.
  intros Hr Hnd Hin.
  destruct (reachable_states_are_coherent Hr) as (_ & _ & Hs & _).
  rewrite Forall_forall in Hs.
  destruct (Hs pin Hin) as (Hne & Ht & Hd & _).
  rewrite editFlow_update. unfold editForm. rewrite play_cons.
  change (play w [] ?x) with x. cbn [handlerOf].
  assert (Hed : editingPin (live (fire (editPin pin) w s)) = Some pin)
    by now rewrite editPin_live.
  assert (Htr : truthy (trim (pinTitle (live (fire (editPin pin) w s))))
                = true).
  { rewrite editPin_live. cbn [pinTitle]. rewrite Ht.
    now apply truthy_nonempty. }
  rewrite (updatePin_done _ w Hed Htr). cbn [live pins].
  rewrite editPin_live. cbn [pins].
  rewrite <- (map_id (pins s)) at 2. apply map_ext_in. intros q Hq.
  destruct (Z.eqb_spec (id q) (id pin)) as [E|E]; [|reflexivity].
  rewrite (NoDup_map_unique id (pins s) q pin Hnd Hq Hin E).
  unfold updatedPin. cbn [pinTitle pinDescription pinCategory].
  rewrite Ht, Hd. now destruct pin.
Qed.

Lemma stored_reachable : reaches initial Scenario.stored.
Proof.
  unfold Scenario.stored, play. cbn [fold_left].
  apply reaches_step; [apply reaches_step; [apply reaches_step|]|].
  - apply reaches_refl.
  - exact I.
  - now left.
  - split; reflexivity.
Qed.

Lemma untouched_edit_changes_nothing_witness :
  pins (play Scenario.online (editFlow Scenario.station []) Scenario.stored)
  = pins Scenario.stored.
Proof.
  refine (@untouched_edit_changes_nothing Scenario.stored Scenario.online
            Scenario.station stored_reachable _ _).
  - repeat constructor. simpl. tauto.
  - left. reflexivity.
Defined.

(* ================================================================== *)
(** * The loading flag and the request *)
(* ================================================================== *)

(** X16.  A handler's promise is rejected only when Create was clicked and
    the request for the pending pin was rejected; and while no promise is
    rejected the loading flag is never left set: a handler that starts with
    the flag cleared and whose promise is fulfilled ends with the flag
    cleared. *)
Theorem loading_flag_only_after_rejection (s : State) (w : World) (e : Event) :
  (value (fire (handlerOf e) w s) = None ->
   e = ClickCreate
   /\ exists p : LatLng,
        pendingPin s = Some p
        /\ fetchJson w (reverseUrl (ll_lat p) (ll_lng p)) = None)
  /\ (isLoadingAddress s = false ->
      value (fire (handlerOf e) w s) = Some tt ->
      isLoadingAddress (live (fire (handlerOf e) w s)) = false).
Proof.
  destruct e as [lat lng|v|v|v| | | | |pin|pin]; cbn [handlerOf].
  - rewrite handleMapClick_live. unfold handleMapClick. run_handler.
    split; [discriminate | auto].
  - split; [discriminate | auto].
  - split; [discriminate | auto].
  - split; [discriminate | auto].
  - unfold cancelPin. run_handler. split; [discriminate | auto].
  - destruct (truthy (trim (pinTitle s))) eqn:Ht;
      [|rewrite (addPin_inert s w Ht); split; [discriminate | auto]].
    destruct (pendingPin s) as [p|] eqn:Hp;
      [|unfold fire, addPin; rewrite Hp; split; [discriminate | auto]].
    destruct (fetchJson w (reverseUrl (ll_lat p) (ll_lng p)))
      as [data|] eqn:Hf.
    + rewrite (addPin_resolved s w Hp Ht Hf). split; [discriminate | auto].
    + rewrite (addPin_rejected s w Hp Ht Hf).
      split; [|discriminate]. intros _. split; [reflexivity|].
      exists p. now split.
  - unfold cancelEdit. run_handler. split; [discriminate | auto].
  - destruct (truthy (trim (pinTitle s))) eqn:Ht;
      [|rewrite (updatePin_inert s w Ht); split; [discriminate | auto]].
    destruct (editingPin s) as [editing|] eqn:Hed;
      [|unfold fire, updatePin; rewrite Hed; split; [discriminate | auto]].
    rewrite (updatePin_done s w Hed Ht). split; [discriminate | auto].
  - rewrite editPin_live. unfold editPin. run_handler.
    split; [discriminate | auto].
  - unfold deletePin. run_handler.
    destruct (windowConfirm w); split; try discriminate; auto.
Qed.

(** X17.  Whenever the request of [addPin] is rejected, in any state with
    the create modal open: the promise of [addPin] is rejected, the state
    differs from the one before in the loading flag alone (the store, the
    pending pin and the form are kept), and in every state the page gets to
    afterwards the modal is shown, the flag set and both of its buttons
    disabled. *)
Theorem rejected_request_blocks_the_modal (s s' : State) (w : World)
    (p : LatLng) :
  showModal s = true ->
  pendingPin s = Some p ->
  truthy (trim (pinTitle s)) = true ->
  fetchJson w (reverseUrl (ll_lat p) (ll_lng p)) = None ->
  reaches (live (fire addPin w s)) s' ->
  fire addPin w s
  = {| live :=
         {| pins := pins s; showModal := showModal s;
            pendingPin := pendingPin s;
            pinTitle := pinTitle s; pinDescription := pinDescription s;
            pinCategory := pinCategory s;
            isLoadingAddress := true;
            editingPin := editingPin s; showEditModal := showEditModal s |};
       effects := [Fetch (reverseUrl (ll_lat p) (ll_lng p))];
       value := None |}
  /\ showModal s' = true /\ isLoadingAddress s' = true
  /\ cancelDisabled s' = true /\ submitDisabled s' = true.
Proof.
  intros Hm Hp Ht Hf Hr. split; [exact (addPin_rejected s w Hp Ht Hf)|].
  assert (Hs : stuck (live (fire addPin w s))).
  { rewrite (addPin_rejected s w Hp Ht Hf). now split. }
  pose proof (stuck_forever Hs Hr) as Hs'.
  destruct (stuck_buttons Hs') as [Hc Hb]. destruct Hs' as [Hm' Hl].
  now repeat split.
Qed.

Lemma rejected_request_blocks_the_modal_witness :
  fire addPin Scenario.offline Scenario.tower
  = {| live :=
         {| pins := pins Scenario.tower; showModal := showModal Scenario.tower;
            pendingPin := pendingPin Scenario.tower;
            pinTitle := pinTitle Scenario.tower;
            pinDescription := pinDescription Scenario.tower;
            pinCategory := pinCategory Scenario.tower;
            isLoadingAddress := true;
            editingPin := editingPin Scenario.tower;
            showEditModal := showEditModal Scenario.tower |};
       effects := [Fetch (reverseUrl (ll_lat Scenario.centre)
                            (ll_lng Scenario.centre))];
       value := None |}
  /\ showModal
       (live (fire (handlerOf (TypeTitle (str "CN Tower"))) Scenario.online
                (live (fire addPin Scenario.offline Scenario.tower)))) = true
  /\ isLoadingAddress
       (live (fire (handlerOf (TypeTitle (str "CN Tower"))) Scenario.online
                (live (fire addPin Scenario.offline Scenario.tower)))) = true
  /\ cancelDisabled
       (live (fire (handlerOf (TypeTitle (str "CN Tower"))) Scenario.online
                (live (fire addPin Scenario.offline Scenario.tower)))) = true
  /\ submitDisabled
       (live (fire (handlerOf (TypeTitle (str "CN Tower"))) Scenario.online
                (live (fire addPin Scenario.offline Scenario.tower)))) = true.
Proof.
  refine (@rejected_request_blocks_the_modal Scenario.tower _ Scenario.offline
            Scenario.centre eq_refl eq_refl eq_refl eq_refl _).
  apply reaches_step; [apply reaches_refl | now left].
Defined.

(** [addPin] is its start, the request, and [addPinAfter]. *)
Lemma addPin_splits (r : State) (p : LatLng) :
  pendingPin r = Some p ->
  truthy (trim (pinTitle r)) = true ->
  addPin r
  = (setIsLoadingAddress true ;;
     address <- getAddress (ll_lat p) (ll_lng p) ;;
     addPinAfter r p address).
Proof. intros Hp Ht. unfold addPin. now rewrite Hp, Ht. Qed.

(** X18.  The part of [addPin] behind the [await] works on the render in
    which Create was clicked: on whatever live state [s] it resumes, it
    writes that render's store with the new pin appended (the store of [s]
    is overwritten), gives the pin that render's trimmed title and
    description and its category, resets the form and the flags of the
    create modal, and leaves the edit modal of [s] alone. *)
Theorem addPin_resumes_on_its_render (r s : State) (w : World) (p : LatLng)
    (a : jsstring) :
  pendingPin r = Some p ->
  truthy (trim (pinTitle r)) = true ->
  addPin r
  = (setIsLoadingAddress true ;;
     address <- getAddress (ll_lat p) (ll_lng p) ;;
     addPinAfter r p address)
  /\ live (addPinAfter r p a w s)
     = {| pins := pins r ++
            [{| id := dateNow w; lat := ll_lat p; lng := ll_lng p;
                title := trim (pinTitle r);
                description := trim (pinDescription r);
                category := pinCategory r; address := Some a |}];
          showModal := false; pendingPin := None;
          pinTitle := []; pinDescription := []; pinCategory := restaurant;
          isLoadingAddress := false;
          editingPin := editingPin s; showEditModal := showEditModal s |}.
Proof.
  intros Hp Ht. split; [now apply addPin_splits|].
  unfold addPinAfter. run_handler. reflexivity.
Qed.

Lemma addPin_resumes_on_its_render_witness :
  addPin Scenario.tower
  = (setIsLoadingAddress true ;;
     address <- getAddress (ll_lat Scenario.centre) (ll_lng Scenario.centre) ;;
     addPinAfter Scenario.tower Scenario.centre address)
  /\ live (addPinAfter Scenario.tower Scenario.centre (str "<a>x</a>")
             Scenario.later (resting [Scenario.island]))
     = {| pins := pins Scenario.tower ++
            [{| id := dateNow Scenario.later;
                lat := ll_lat Scenario.centre; lng := ll_lng Scenario.centre;
                title := trim (pinTitle Scenario.tower);
                description := trim (pinDescription Scenario.tower);
                category := pinCategory Scenario.tower;
                address := Some (str "<a>x</a>") |}];
          showModal := false; pendingPin := None;
          pinTitle := []; pinDescription := []; pinCategory := restaurant;
          isLoadingAddress := false;
          editingPin := editingPin (resting [Scenario.island]);
          showEditModal := showEditModal (resting [Scenario.island]) |}.
Proof.
  exact (@addPin_resumes_on_its_render Scenario.tower
           (resting [Scenario.island]) Scenario.later Scenario.centre
           (str "<a>x</a>") eq_refl eq_refl).
Defined.

Lemma loading_flag_only_after_rejection_witness :
  ClickCreate = ClickCreate
  /\ exists p : LatLng,
       pendingPin Scenario.tower = Some p
       /\ fetchJson Scenario.offline (reverseUrl (ll_lat p) (ll_lng p)) = None.
Proof.
  exact (proj1 (loading_flag_only_after_rejection Scenario.tower
                  Scenario.offline ClickCreate) eq_refl).
Defined.

(* ================================================================== *)
(** * Markers, popups and buttons *)
(* ================================================================== *)

(** X19.  In every state the page gets to, there is one marker per pin of
    the store, in the order of the store and keyed by the pin's id, and the
    popup of every marker shows a title that is not empty and an address
    line: the anchor stored with the pin behind the "Address:" label. *)
Theorem markers_show_title_and_address (s : State) :
  reaches initial s ->
  map View.key (View.markers s) = map id (pins s)
  /\ Forall (fun m : View.Marker =>
               View.popupTitle (View.popup m) <> []
               /\ exists a : jsstring,
                    a <> []
                    /\ View.popupAddress (View.popup m)
                       = Some (str "<strong>Address:</strong> " ++ a))
            (View.markers s).
Proof.
  intros Hr. destruct (reachable_states_are_coherent Hr) as (_ & _ & Hs & _).
  unfold View.markers. split; [now rewrite map_map|].
  apply Forall_map. eapply Forall_impl; [|exact Hs].
  intros pin (Hne & _ & _ & a & Ha & Hane).
  cbn [View.popup View.popupOf View.popupTitle View.popupAddress].
  split; [exact Hne|]. exists a. split; [exact Hane|].
  rewrite Ha. now rewrite (truthy_nonempty Hane).
Qed.

Lemma markers_show_title_and_address_witness :
  map View.key (View.markers Scenario.stored) = map id (pins Scenario.stored)
  /\ Forall (fun m : View.Marker =>
               View.popupTitle (View.popup m) <> []
               /\ exists a : jsstring,
                    a <> []
                    /\ View.popupAddress (View.popup m)
                       = Some (str "<strong>Address:</strong> " ++ a))
            (View.markers Scenario.stored).
Proof.
  exact (@markers_show_title_and_address Scenario.stored stored_reachable).
Defined.

(** X20.  The popup of a pin made by [addPin] has a description line exactly
    when the description typed into the form has a code unit that is not
    white space; the line then shows the description trimmed. *)
Theorem new_pin_description_line (r : State) (p : LatLng) (stamp : Z)
    (a : jsstring) :
  View.popupDescription (View.popupOf (newPin r p stamp a))
  = if hasInk (pinDescription r) then Some (trim (pinDescription r))
    else None.
Proof.
  unfold View.popupOf, newPin. cbn [View.popupDescription description].
  now rewrite truthy_trim_hasInk.
Qed.

(** X21.  A submit button (Create Pin, Update Pin) is enabled exactly when
    the title has a code unit that is not white space and the loading flag
    is cleared; the Cancel buttons are enabled exactly when the flag is
    cleared. *)
Theorem submit_enabled_iff (s : State) :
  (submitDisabled s = false
   <-> hasInk (pinTitle s) = true /\ isLoadingAddress s = false)
  /\ (cancelDisabled s = false <-> isLoadingAddress s = false).
Proof.
  unfold submitDisabled, cancelDisabled. rewrite truthy_trim_hasInk.
  split; [|tauto].
  destruct (hasInk (pinTitle s)), (isLoadingAddress s); simpl;
    split; try tauto; try discriminate; intros [? ?]; discriminate.
Qed.


(* ================================================================== *)
(** * The address text, for every display name *)
(* ================================================================== *)

(** X23.  A [display_name] that is the empty string counts as missing: the
    address stored is the one stored when the field is absent, and it shows
    the text "Address not found". *)
Theorem empty_display_name_falls_back (s : State) (w w' : World) (p : LatLng) :
  pendingPin s = Some p ->
  truthy (trim (pinTitle s)) = true ->
  fetchJson w (reverseUrl (ll_lat p) (ll_lng p))
  = Some {| display_name := Some [] |} ->
  fetchJson w' (reverseUrl (ll_lat p) (ll_lng p))
  = Some {| display_name := None |} ->
  dateNow w' = dateNow w ->
  live (fire addPin w s) = live (fire addPin w' s)
  /\ newestAddressText (live (fire addPin w s))
     = Some (str "Address not found").
Proof.
  intros Hp Ht Hf Hf' Hnow. split.
  - rewrite (addPin_resolved s w Hp Ht Hf), (addPin_resolved s w' Hp Ht Hf').
    cbn [live display_name orElse truthy]. now rewrite Hnow.
  - rewrite (addPin_address_text s w Hp Ht Hf).
    cbn [display_name orElse truthy].
    rewrite visibleText_createAddressLink; [f_equal|]; now vm_compute.
Qed.

Lemma empty_display_name_falls_back_witness :
  live (fire addPin
          {| fetchJson := fun _ => Some {| display_name := Some [] |};
             dateNow := 1700000000000; windowConfirm := true |}
          Scenario.tower)
  = live (fire addPin Scenario.nameless Scenario.tower)
  /\ newestAddressText
       (live (fire addPin
                {| fetchJson := fun _ => Some {| display_name := Some [] |};
                   dateNow := 1700000000000; windowConfirm := true |}
                Scenario.tower))
     = Some (str "Address not found").
Proof.
  exact (@empty_display_name_falls_back Scenario.tower
           {| fetchJson := fun _ => Some {| display_name := Some [] |};
              dateNow := 1700000000000; windowConfirm := true |}
           Scenario.nameless Scenario.centre
           eq_refl eq_refl eq_refl eq_refl eq_refl).
Defined.






(* ================================================================== *)
(** * A display name with markup of its own *)
(* ================================================================== *)

(** C9 fails on the code.  The geocoder answers with the display name
    [</a><a href="https://evil.example">Main St].  The markup stored by the
    create flow is then two anchors: the map link, empty, and behind it an
    anchor around the text "Main St" whose [href] is https://evil.example
    and which has neither [target] nor [rel].  The address is not one
    anchor around its text. *)
Theorem stored_address_can_be_hijacked :
  exists (pin : Pin) (html : jsstring),
    newestPin (live (fire addPin Scenario.foreign
                       (Scenario.filled (str "Union Station") [] travel)))
    = Some pin
    /\ address pin = Some html
    /\ nodes html
       = Some [{| nodeTag := str "a";
                  nodeAttributes :=
                    [(str "href",
                      str "https://www.google.com/maps?q=43.64288135247436,-79.387089011289");
                     (str "target", str "_blank");
                     (str "rel", str "noopener noreferrer");
                     (str "style",
                      str "color: #007bff; text-decoration: underline;")];
                  nodeText := [] |};
               {| nodeTag := str "a";
                  nodeAttributes := [(str "href", str "https://evil.example")];
                  nodeText := str "Main St" |}]
    /\ newestAddressText
         (live (fire addPin Scenario.foreign
                  (Scenario.filled (str "Union Station") [] travel)))
       = None.
Proof.
  eexists. eexists. split; [vm_compute; reflexivity|].
  split; [reflexivity|]. split; vm_compute; reflexivity.
Qed.
